(** * WCDB [TimedQueue]: a shallow embedding of
      [objc/source/util/timed_queue.hpp] and the properties of its
      operations.

    The class keeps a [std::list] of shared elements, newest at the front,
    and an [std::unordered_map] from keys to list iterators.  A list
    iterator is the address of a list node; it stays valid until that node
    is erased.  We therefore model the list as a sequence of
    (node address, element) pairs and the map as a finite map from keys to
    node addresses; erasing through an address that is not in the list is
    undefined behaviour in C++ and yields [None] here.

    Time points are ticks of [std::chrono::steady_clock], as integers; the
    finite range of the clock's representation is not modelled.  The mutex
    and the condition variable are not part of the state: every function
    below is one critical section of the source, and the places where
    [waitUntilExpired] gives up the lock are explicit in its schedule. *)

From stdpp Require Import gmap list sorting strings.
From Stdlib Require Import ZArith Lia.

Local Open Scope Z_scope.

(** Ticks of the steady clock, and the address of a list node (the value
    of a [List::iterator]). *)
Definition Time := Z.
Definition Node := nat.

Section timed_queue.

Context {Key : Type} `{Countable Key} {Info : Type}.

(** Number of clock ticks in one second: the factor of the conversion
    that [time_point + std::chrono::seconds] performs. *)
Variable ticks_per_second : Z.

(** [std::chrono::seconds(n)], as a duration in clock ticks. *)
Definition seconds (n : Z) : Z := n * ticks_per_second.

(** [struct Element]. *)
Record Element := mkElement {
  key : Key;
  time : Time;
  info : Info
}.

(** The data members of [TimedQueue]; the duration [m_delay] is held in
    clock ticks. *)
Record TimedQueue := mkQueue {
  m_map : gmap Key Node;
  m_list : list (Node * Element);
  m_delay : Z;
  m_break : bool
}.

(** [TimedQueue(int delay)]. *)
Definition TimedQueue_new (delay : Z) : TimedQueue :=
  {| m_map := ∅; m_list := []; m_delay := seconds delay; m_break := false |}.

(** ** The containers *)

(** [m_list.erase(iter)]: unlink the node at address [n]. *)
Fixpoint list_erase (n : Node) (l : list (Node * Element))
  : option (list (Node * Element)) :=
  match l with
  | [] => None
  | x :: l' =>
      if decide (x.1 = n) then Some l' else cons x <$> list_erase n l'
  end.

(** The address of the node that [push_front] allocates: any address that
    no node of the list occupies; addresses of erased nodes may come
    back. *)
Definition new_node (l : list (Node * Element)) : Node :=
  S (foldr Nat.max 0%nat l.*1).

(** [m_map.insert({key, last})]: [unordered_map::insert] keeps an existing
    mapping. *)
Definition map_insert (k : Key) (n : Node) (m : gmap Key Node)
  : gmap Key Node :=
  match m !! k with
  | Some _ => m
  | None => <[k := n]> m
  end.

(** ** The operations *)

(** [unsafeRemove]. *)
Definition unsafeRemove (k : Key) (s : TimedQueue) : option TimedQueue :=
  match m_map s !! k with
  | None => Some s
  | Some n =>
      l' ← list_erase n (m_list s);
      Some {| m_map := delete k (m_map s); m_list := l';
              m_delay := m_delay s; m_break := m_break s |}
  end.

(** [reQueue]; [now] is the value of [steady_clock::now()] read under the
    lock.  The second component tells whether [m_cond.notify_one()] is
    called. *)
Definition reQueue (k : Key) (i : Info) (now : Time) (s : TimedQueue)
  : option (TimedQueue * bool) :=
  let signal := bool_decide (m_list s = []) in
  s1 ← unsafeRemove k s;
  let element := mkElement k (now + m_delay s1) i in
  let last := new_node (m_list s1) in
  Some ({| m_map := map_insert k last (m_map s1);
           m_list := (last, element) :: m_list s1;
           m_delay := m_delay s1; m_break := m_break s1 |}, signal).

(** [remove]. *)
Definition remove (k : Key) (s : TimedQueue) : option TimedQueue :=
  unsafeRemove k s.

(** [notify]. *)
Definition notify (s : TimedQueue) : TimedQueue :=
  {| m_map := m_map s; m_list := m_list s;
     m_delay := m_delay s; m_break := true |}.

(** *** [waitUntilExpired] *)

(** One test of the first loop (lines 77 to 83), under the lock. *)
Inductive WaitStep :=
| WaitReturn      (* [return] at line 81 *)
| WaitBlock       (* [m_cond.wait(lockGuard)] *)
| WaitProceed.    (* the list is not empty: leave the loop *)

Definition wait_test (s : TimedQueue) : WaitStep :=
  match m_list s with
  | [] => if m_break s then WaitReturn else WaitBlock
  | _ :: _ => WaitProceed
  end.

(** One pass of the second loop (lines 87 to 102) with clock reading
    [now]: either [get] becomes true and the element is handed to the
    callback, or the thread sleeps. *)
Inductive ExpireStep :=
| Expired (e : Element) (s' : TimedQueue)
| NotYet (d : Z).

Definition expire_test (now : Time) (s : TimedQueue) : option ExpireStep :=
  match last (m_list s) with
  | None => None
  | Some (_, element) =>
      if bool_decide (now > time element) then
        Some (Expired element
                {| m_map := delete (key element) (m_map s);
                   m_list := removelast (m_list s);
                   m_delay := m_delay s; m_break := m_break s |})
      else Some (NotYet (time element - now))
  end.

(** What other threads do to the queue: each constructor is one
    critical section of a producer. *)
Inductive Op :=
| OpReQueue (k : Key) (i : Info) (now : Time)
| OpRemove (k : Key)
| OpNotify.

Definition apply_op (o : Op) (s : TimedQueue) : option TimedQueue :=
  match o with
  | OpReQueue k i now => fst <$> reQueue k i now s
  | OpRemove k => remove k s
  | OpNotify => Some (notify s)
  end.

Fixpoint apply_ops (ops : list Op) (s : TimedQueue) : option TimedQueue :=
  match ops with
  | [] => Some s
  | o :: ops' => s' ← apply_op o s; apply_ops ops' s'
  end.

(** What a call of [waitUntilExpired] does besides changing the queue. *)
Inductive Effect :=
| CondWait                          (* [m_cond.wait(lockGuard)] *)
| SleepFor (d : Z)                  (* [std::this_thread::sleep_for] *)
| OnExpired (k : Key) (i : Info).   (* the callback *)

(** The result of a call under a finite schedule.  The function has
    return type [void]: a call that returns yields the unit value.
    [Pending] is a call that the schedule leaves blocked or asleep;
    [Undefined] is undefined behaviour ([back()] of an empty list, or an
    erase through a dangling iterator in another thread). *)
Inductive Outcome :=
| Returned (r : unit) (effs : list Effect) (s : TimedQueue)
| Pending (effs : list Effect) (s : TimedQueue)
| Undefined.

Definition after (eff : Effect) (o : Outcome) : Outcome :=
  match o with
  | Returned r effs s => Returned r (eff :: effs) s
  | Pending effs s => Pending (eff :: effs) s
  | Undefined => Undefined
  end.

(** The second loop.  A round [(ops, now)] is one iteration: [ops] is what
    the other threads do while this thread does not hold the lock (between
    the two loops, or during the sleep), [now] is the clock reading of
    line 88. *)
Fixpoint expire_loop (rounds : list (list Op * Time)) (s : TimedQueue)
  : Outcome :=
  match rounds with
  | [] => Pending [] s
  | (ops, now) :: rounds' =>
      match apply_ops ops s with
      | None => Undefined
      | Some s1 =>
          match expire_test now s1 with
          | None => Undefined
          | Some (Expired element s2) =>
              Returned tt [OnExpired (key element) (info element)] s2
          | Some (NotYet d) => after (SleepFor d) (expire_loop rounds' s1)
          end
      end
  end.

(** The whole function.  [wakes] lists, for each time the thread blocks on
    the condition variable, what the other threads do before it runs
    again. *)
Fixpoint waitUntilExpired (wakes : list (list Op))
    (rounds : list (list Op * Time)) (s : TimedQueue) : Outcome :=
  match wait_test s with
  | WaitReturn => Returned tt [] s
  | WaitProceed => expire_loop rounds s
  | WaitBlock =>
      match wakes with
      | [] => Pending [CondWait] s
      | ops :: wakes' =>
          match apply_ops ops s with
          | None => Undefined
          | Some s' => after CondWait (waitUntilExpired wakes' rounds s')
          end
      end
  end.

(** The value a call returns, what it did, the state it leaves, and the
    callback invocations and sleeps among the effects. *)
Definition result (o : Outcome) : option unit :=
  match o with
  | Returned r _ _ => Some r
  | _ => None
  end.

Definition effects (o : Outcome) : list Effect :=
  match o with
  | Returned _ effs _ | Pending effs _ => effs
  | Undefined => []
  end.

Definition final (o : Outcome) : option TimedQueue :=
  match o with
  | Returned _ _ s | Pending _ s => Some s
  | Undefined => None
  end.

Definition callbacks (effs : list Effect) : list (Key * Info) :=
  omap (λ eff, match eff with
               | OnExpired k i => Some (k, i)
               | _ => None
               end) effs.

Definition sleeps (effs : list Effect) : list Z :=
  omap (λ eff, match eff with
               | SleepFor d => Some d
               | _ => None
               end) effs.

(** ** Executions

    An execution of the whole object is a sequence of critical sections in
    the order in which the lock is taken: producer operations, and passes
    of a consumer through the locked block of the second loop.  The first
    loop of [waitUntilExpired] changes nothing and needs no event. *)
Inductive Event :=
| EvOp (o : Op)
| EvExpire (now : Time).

(** One event: the next state and the elements handed to the callback. *)
Definition step (ev : Event) (s : TimedQueue)
  : option (TimedQueue * list Element) :=
  match ev with
  | EvOp o => s' ← apply_op o s; Some (s', [])
  | EvExpire now =>
      r ← expire_test now s;
      Some (match r with
            | Expired element s' => (s', [element])
            | NotYet _ => (s, [])
            end)
  end.

Fixpoint run (evs : list Event) (s : TimedQueue)
  : option (TimedQueue * list Element) :=
  match evs with
  | [] => Some (s, [])
  | ev :: evs' =>
      r1 ← step ev s;
      r2 ← run evs' r1.1;
      Some (r2.1, r1.2 ++ r2.2)
  end.

(** The elements that the [reQueue] calls of an execution create, in the
    order of the calls, and the clock readings of those calls. *)
Definition inserted (d : Z) (evs : list Event) : list Element :=
  omap (λ ev, match ev with
              | EvOp (OpReQueue k i now) =>
                  Some (mkElement k (now + d) i)
              | _ => None
              end) evs.

Definition reQueue_clock (evs : list Event) : list Time :=
  omap (λ ev, match ev with
              | EvOp (OpReQueue _ _ now) => Some now
              | _ => None
              end) evs.

(** ** State predicates *)

Definition elements (s : TimedQueue) : list Element := (m_list s).*2.

Definition keys (s : TimedQueue) : list Key := key <$> elements s.

(** The entries of key [k], front to back. *)
Definition entries_of (k : Key) (s : TimedQueue) : list Element :=
  filter (λ e, key e = k) (elements s).

(** Map and list agree: node addresses are distinct, every key occurs at
    most once, and the map sends a key to a node exactly when the list
    holds an element of that key at that node. *)
Record consistent (s : TimedQueue) : Prop := {
  consistent_nodes : NoDup (m_list s).*1;
  consistent_keys : NoDup (keys s);
  consistent_map : ∀ k n,
    m_map s !! k = Some n ↔ ∃ e, (n, e) ∈ m_list s ∧ key e = k
}.

(** Expiration times do not increase from the front of the list to the
    back. *)
Definition newest_first (l : list Element) : Prop :=
  StronglySorted (λ a b, time b ≤ time a) l.

(** Sorted, and no element expires later than one inserted at clock
    reading [c] would. *)
Definition ordered (c : Time) (s : TimedQueue) : Prop :=
  newest_first (elements s) ∧
  Forall (λ e, time e ≤ c + m_delay s) (elements s).

End timed_queue.

Arguments Element : clear implicits.
Arguments TimedQueue Key {_ _} Info.
Arguments ExpireStep Key {_ _} Info.
Arguments Op : clear implicits.
Arguments Effect : clear implicits.
Arguments Outcome Key {_ _} Info.
Arguments Event : clear implicits.

(** * An example: the scenario of two producers

    Keys and payloads are strings, the clock ticks in nanoseconds, the
    delay is two seconds.  [A] is inserted at 0 s, [B] at 0.5 s. *)

Definition ns_per_second : Z := 1000000000.

Definition example_new : TimedQueue string string :=
  TimedQueue_new ns_per_second 2.

Definition example_events : list (Event string string) :=
  [EvOp (OpReQueue "A" "x" 0); EvOp (OpReQueue "B" "z" 500000000)].

(** The queue after [example_events]. *)
Definition example_queue : TimedQueue string string :=
  {| m_map := {["A" := 1%nat; "B" := 2%nat]};
     m_list := [(2%nat, mkElement "B" 2500000000 "z");
                (1%nat, mkElement "A" 2000000000 "x")];
     m_delay := 2000000000;
     m_break := false |}.

(** The queue after the delivery of [A]. *)
Definition example_rest : TimedQueue string string :=
  {| m_map := {["B" := 2%nat]};
     m_list := [(2%nat, mkElement "B" 2500000000 "z")];
     m_delay := 2000000000;
     m_break := false |}.

(** * Properties *)

Section properties.

Context {Key : Type} `{Countable Key} {Info : Type}.

Implicit Types (s : TimedQueue Key Info) (l : list (Node * Element Key Info)).
Implicit Types (k : Key) (i : Info) (n : Node) (e : Element Key Info).
Implicit Types (now : Time).

(** ** The containers *)

Lemma new_node_fresh l : new_node l ∉ l.*1.
Proof.
  assert (Hle : ∀ n, n ∈ l.*1 → (n ≤ foldr Nat.max 0 l.*1)%nat).
  { induction l as [|x l IH]; intros n Hn.
    - by apply elem_of_nil in Hn.
    - rewrite fmap_cons in Hn |- *. cbn [foldr].
      apply elem_of_cons in Hn as [->|Hn]; [lia|].
      specialize (IH _ Hn). lia. }
  intros Hin. apply Hle in Hin. unfold new_node in Hin. lia.
Qed.

Lemma filter_all {A} (P : A → Prop) `{∀ x, Decision (P x)} (xs : list A) :
  Forall P xs → filter P xs = xs.
Proof.
  induction 1 as [|x xs Hx _ IH]; [done|].
  rewrite filter_cons_True by done. by rewrite IH.
Qed.

Lemma list_erase_Some l n e :
  (n, e) ∈ l → is_Some (list_erase n l).
Proof.
  induction l as [|x l IH]; intros Hin; simpl.
  - by apply elem_of_nil in Hin.
  - case_decide; [by eexists|].
    apply elem_of_cons in Hin as [<-|Hin]; [done|].
    destruct (IH Hin) as [l' ->]. by eexists.
Qed.

Lemma list_erase_filter l l' n :
  NoDup l.*1 → list_erase n l = Some l' →
  l' = filter (λ x, x.1 ≠ n) l.
Proof.
  revert l'. induction l as [|x l IH]; intros l' Hnd Her; simpl in Her; [done|].
  rewrite fmap_cons in Hnd. apply NoDup_cons in Hnd as [Hx Hnd].
  case_decide as Hxn.
  - injection Her as <-. rewrite filter_cons_False by naive_solver.
    symmetry. apply filter_all. apply Forall_forall.
    intros y Hy Hyn. apply Hx. rewrite Hxn, <- Hyn.
    apply list_elem_of_fmap. by exists y.
  - destruct (list_erase n l) as [l0|] eqn:E; [|done].
    injection Her as <-. rewrite filter_cons_True by done.
    f_equal. by apply IH.
Qed.

Lemma filter_agree {A} (P Q : A → Prop)
    `{∀ x, Decision (P x)} `{∀ x, Decision (Q x)} (xs : list A) :
  (∀ x, x ∈ xs → P x ↔ Q x) → filter P xs = filter Q xs.
Proof.
  induction xs as [|x xs IH]; intros HPQ; [done|].
  rewrite !filter_cons, IH by (intros y Hy; apply HPQ; by right).
  destruct (decide (P x)) as [HP|HP], (decide (Q x)) as [HQ|HQ];
    try done; exfalso; apply (HPQ x (list_elem_of_here _ _)) in HP ||
    apply (HPQ x (list_elem_of_here _ _)) in HQ; done.
Qed.

Lemma node_unique l n e1 e2 :
  NoDup l.*1 → (n, e1) ∈ l → (n, e2) ∈ l → e1 = e2.
Proof.
  induction l as [|x l IH]; intros Hnd H1 H2.
  - by apply elem_of_nil in H1.
  - rewrite fmap_cons in Hnd. apply NoDup_cons in Hnd as [Hx Hnd].
    apply elem_of_cons in H1 as [H1|H1], H2 as [H2|H2].
    + congruence.
    + subst x. exfalso. apply Hx. apply list_elem_of_fmap. by exists (n, e2).
    + subst x. exfalso. apply Hx. apply list_elem_of_fmap. by exists (n, e1).
    + by apply IH.
Qed.

Lemma sublist_reverse {A} (xs ys : list A) :
  xs `sublist_of` ys → reverse xs `sublist_of` reverse ys.
Proof.
  induction 1 as [|x xs ys _ IH|x xs ys _ IH]; [done| |].
  - rewrite !reverse_cons. by apply sublist_app.
  - rewrite reverse_cons. by apply sublist_inserts_r.
Qed.

Lemma sublist_StronglySorted {A} (R : relation A) (xs ys : list A) :
  xs `sublist_of` ys → StronglySorted R ys → StronglySorted R xs.
Proof.
  induction 1 as [|x xs ys Hsub IH|x xs ys Hsub IH]; [done| |].
  - intros [Hs Hx]%StronglySorted_inv. constructor; [by apply IH|].
    apply Forall_forall. intros y Hy.
    eapply Forall_forall in Hx; [done|]. by eapply sublist_subseteq.
  - intros [Hs _]%StronglySorted_inv. by apply IH.
Qed.

Lemma list_erase_sublist l l' n :
  list_erase n l = Some l' → l' `sublist_of` l.
Proof.
  revert l'. induction l as [|x l IH]; intros l' Her; simpl in Her; [done|].
  case_decide.
  - injection Her as <-. by apply sublist_cons.
  - destruct (list_erase n l) as [l0|]; [|done].
    injection Her as <-. apply sublist_skip. by apply IH.
Qed.

Lemma removelast_sublist {A} (xs : list A) : removelast xs `sublist_of` xs.
Proof.
  induction xs as [|x [|y xs] IH]; [done|by apply sublist_cons|].
  change (removelast (x :: y :: xs)) with (x :: removelast (y :: xs)).
  by apply sublist_skip.
Qed.

(** ** Consistency of map and list *)

Lemma consistent_new tps delay :
  consistent (TimedQueue_new (Key := Key) (Info := Info) tps delay).
Proof.
  split; simpl.
  - apply NoDup_nil_2.
  - apply NoDup_nil_2.
  - intros k n. rewrite lookup_empty. split; [done|].
    intros (e & He & _). by apply elem_of_nil in He.
Qed.

Lemma consistent_key_unique s x y :
  consistent s → x ∈ m_list s → y ∈ m_list s → key x.2 = key y.2 → x = y.
Proof.
  intros Hc Hx Hy Hk. destruct x as [n1 e1], y as [n2 e2]; simpl in *.
  assert (n1 = n2) as ->.
  { assert (m_map s !! key e1 = Some n1) as H1
      by (apply (consistent_map _ Hc); eauto).
    assert (m_map s !! key e1 = Some n2) as H2
      by (apply (consistent_map _ Hc); eauto).
    congruence. }
  f_equal. eapply node_unique; eauto using consistent_nodes.
Qed.

Lemma consistent_no_entry s k :
  consistent s → m_map s !! k = None → k ∉ keys s.
Proof.
  intros Hc Hk Hin. unfold keys, elements in Hin.
  apply list_elem_of_fmap in Hin as (e & -> & He).
  apply list_elem_of_fmap in He as ([n e'] & -> & He).
  assert (m_map s !! key e' = Some n) by (apply (consistent_map _ Hc); eauto).
  simpl in *. congruence.
Qed.

(** What [unsafeRemove] does to a consistent queue: it never fails, it
    drops the element of that key from the list and the key from the
    map. *)
Lemma unsafeRemove_spec s k :
  consistent s →
  unsafeRemove k s =
    Some {| m_map := delete k (m_map s);
            m_list := filter (λ x, key x.2 ≠ k) (m_list s);
            m_delay := m_delay s; m_break := m_break s |}.
Proof.
  intros Hc. unfold unsafeRemove.
  destruct (m_map s !! k) as [n|] eqn:Hk.
  - apply (consistent_map _ Hc) in Hk as Hin. destruct Hin as (e & Hin & Hke).
    destruct (list_erase_Some _ _ _ Hin) as [l' Hl']. rewrite Hl'. simpl.
    do 2 f_equal.
    apply list_erase_filter in Hl'; [|by apply consistent_nodes].
    rewrite Hl'. apply filter_agree. intros x Hx. split.
    + intros Hn Hkx. apply Hn.
      assert (x = (n, e)) as ->; [|done].
      eapply consistent_key_unique; eauto. simpl. congruence.
    + intros Hkx Hn. apply Hkx. destruct x as [n' e']; simpl in *; subst n'.
      by rewrite (node_unique _ _ _ _ (consistent_nodes _ Hc) Hx Hin).
  - rewrite delete_id by done. rewrite filter_all; [by destruct s|].
    apply Forall_forall. intros x Hx Hkx.
    apply (consistent_no_entry _ _ Hc Hk). unfold keys, elements.
    rewrite <- Hkx. apply list_elem_of_fmap_2. by apply list_elem_of_fmap_2.
Qed.

Lemma consistent_drop s k :
  consistent s →
  consistent {| m_map := delete k (m_map s);
                m_list := filter (λ x, key x.2 ≠ k) (m_list s);
                m_delay := m_delay s; m_break := m_break s |}.
Proof.
  intros Hc.
  assert (Hsub : filter (λ x, key x.2 ≠ k) (m_list s) `sublist_of` m_list s)
    by apply sublist_filter.
  split; simpl.
  - eapply sublist_NoDup; [apply (consistent_nodes _ Hc)|].
    by apply fmap_sublist.
  - eapply sublist_NoDup; [apply (consistent_keys _ Hc)|].
    unfold keys, elements; simpl. by do 2 apply fmap_sublist.
  - intros k' n. rewrite lookup_delete_Some, (consistent_map _ Hc). split.
    + intros (Hne & e & He & Hk). exists e. split; [|done].
      apply list_elem_of_filter. simpl. split; [congruence|done].
    + intros (e & He & Hk). apply list_elem_of_filter in He as [Hne He].
      simpl in Hne. split; [congruence|]. eauto.
Qed.

Lemma consistent_push s k n e :
  consistent s → m_map s !! k = None → n ∉ (m_list s).*1 → key e = k →
  consistent {| m_map := <[k := n]> (m_map s);
                m_list := (n, e) :: m_list s;
                m_delay := m_delay s; m_break := m_break s |}.
Proof.
  intros Hc Hk Hn Hke. split; cbn [m_map m_list].
  - rewrite fmap_cons. apply NoDup_cons. split; [done|].
    apply (consistent_nodes _ Hc).
  - unfold keys, elements; cbn [m_list]. rewrite !fmap_cons. apply NoDup_cons.
    split; [|apply (consistent_keys _ Hc)]. cbn [snd]. rewrite Hke.
    by apply consistent_no_entry.
  - intros k' n'. rewrite lookup_insert_Some, (consistent_map _ Hc). split.
    + intros [[<- <-]|(Hne & e' & He' & Hk')].
      * exists e. split; [left|done].
      * exists e'. split; [by right|done].
    + intros (e' & He' & Hk'). apply elem_of_cons in He' as [He'|He'].
      * left. split; congruence.
      * right. split; [|eauto]. intros <-.
        assert (m_map s !! k = Some n') by (apply (consistent_map _ Hc); eauto).
        congruence.
Qed.

Lemma unsafeRemove_consistent s s' k :
  consistent s → unsafeRemove k s = Some s' → consistent s'.
Proof.
  intros Hc. rewrite unsafeRemove_spec by done. intros [= <-].
  by apply consistent_drop.
Qed.

(** What [reQueue] does to a consistent queue. *)
Lemma reQueue_spec s k i now :
  consistent s →
  let rest := filter (λ x, key x.2 ≠ k) (m_list s) in
  reQueue k i now s =
    Some ({| m_map := <[k := new_node rest]> (delete k (m_map s));
             m_list := (new_node rest, mkElement k (now + m_delay s) i) :: rest;
             m_delay := m_delay s; m_break := m_break s |},
          bool_decide (m_list s = [])).
Proof.
  intros Hc rest. unfold reQueue. rewrite unsafeRemove_spec by done. simpl.
  unfold map_insert. by rewrite lookup_delete_eq.
Qed.

Lemma reQueue_consistent s s' k i now signal :
  consistent s → reQueue k i now s = Some (s', signal) → consistent s'.
Proof.
  intros Hc. rewrite reQueue_spec by done. intros [= <- _].
  pose proof (consistent_push _ k
    (new_node (filter (λ x, key x.2 ≠ k) (m_list s)))
    (mkElement k (now + m_delay s) i) (consistent_drop s k Hc)) as Hpush.
  cbn [m_map m_list m_delay m_break] in Hpush. apply Hpush.
  - apply lookup_delete_eq.
  - apply new_node_fresh.
  - done.
Qed.

Lemma notify_consistent s : consistent s → consistent (notify s).
Proof. intros [? ? ?]. by split. Qed.

(** Under consistency, taking the back element off the list is the removal
    of its key. *)
Lemma removelast_filter s n e :
  consistent s → last (m_list s) = Some (n, e) →
  removelast (m_list s) = filter (λ x, key x.2 ≠ key e) (m_list s).
Proof.
  intros Hc Hl. apply last_Some in Hl as [l0 Hl0].
  pose proof (consistent_keys _ Hc) as Hnd.
  unfold keys, elements in Hnd. rewrite Hl0 in Hnd |- *.
  rewrite !fmap_app in Hnd. apply NoDup_app in Hnd as (_ & Hnd & _).
  rewrite removelast_last, filter_app.
  rewrite filter_all, filter_cons_False, filter_nil, app_nil_r; try done.
  - simpl. by intros [].
  - apply Forall_forall. intros x Hx Hk. apply (Hnd (key x.2)).
    + apply list_elem_of_fmap_2 with (f := key).
      by apply list_elem_of_fmap_2 with (f := snd).
    + rewrite Hk. simpl. apply list_elem_of_here.
Qed.

Lemma expire_test_spec s now n e :
  consistent s → last (m_list s) = Some (n, e) →
  expire_test now s =
    Some (if bool_decide (now > time e) then
            Expired e {| m_map := delete (key e) (m_map s);
                         m_list := filter (λ x, key x.2 ≠ key e) (m_list s);
                         m_delay := m_delay s; m_break := m_break s |}
          else NotYet (time e - now)).
Proof.
  intros Hc Hl. unfold expire_test. rewrite Hl.
  case_bool_decide; [|done]. by erewrite removelast_filter.
Qed.

Lemma expire_test_consistent s s' now e :
  consistent s → expire_test now s = Some (Expired e s') → consistent s'.
Proof.
  intros Hc Ht. destruct (last (m_list s)) as [[n e']|] eqn:Hl.
  - rewrite (expire_test_spec _ _ _ _ Hc Hl) in Ht.
    case_bool_decide; [|done]. injection Ht as <- <-.
    by apply consistent_drop.
  - unfold expire_test in Ht. by rewrite Hl in Ht.
Qed.

(** ** Executions *)

Implicit Types (o : Op Key Info) (ev : Event Key Info).
Implicit Types (ops : list (Op Key Info)) (evs : list (Event Key Info)).
Implicit Types (dels : list (Element Key Info)).

Lemma run_cons ev evs s s2 dels :
  run (ev :: evs) s = Some (s2, dels) ↔
  ∃ s1 d1 d2, step ev s = Some (s1, d1) ∧ run evs s1 = Some (s2, d2) ∧
              dels = d1 ++ d2.
Proof.
  simpl. split.
  - destruct (step ev s) as [[s1 d1]|]; simpl; [|done].
    destruct (run evs s1) as [[s2' d2]|] eqn:Hr; simpl; [|done].
    intros [= <- <-]. by exists s1, d1, d2.
  - intros (s1 & d1 & d2 & -> & Hr & ->). simpl. by rewrite Hr.
Qed.

Lemma run_app evs1 evs2 s s2 dels :
  run (evs1 ++ evs2) s = Some (s2, dels) ↔
  ∃ s1 d1 d2, run evs1 s = Some (s1, d1) ∧ run evs2 s1 = Some (s2, d2) ∧
              dels = d1 ++ d2.
Proof.
  revert s dels. induction evs1 as [|ev evs1 IH]; intros s dels.
  - simpl. split.
    + intros Hr. by exists s, [], dels.
    + by intros (s1 & d1 & d2 & [= <- <-] & Hr & ->).
  - rewrite <- app_comm_cons, run_cons. split.
    + intros (s1 & d1 & d2 & Hs & Hr & ->).
      apply IH in Hr as (s1' & d1' & d2' & Hr1 & Hr2 & ->).
      exists s1', (d1 ++ d1'), d2'. split_and!; [|done|by rewrite app_assoc].
      apply run_cons. by exists s1, d1, d1'.
    + intros (s1 & d1 & d2 & Hr1 & Hr2 & ->).
      apply run_cons in Hr1 as (s0 & d0 & d0' & Hs & Hr1 & ->).
      exists s0, d0, (d0' ++ d2). split_and!; [done| |by rewrite app_assoc].
      apply IH. by exists s1, d0', d2.
Qed.

Lemma run_ops ops s s' :
  apply_ops ops s = Some s' ↔ run (EvOp <$> ops) s = Some (s', []).
Proof.
  revert s. induction ops as [|o ops IH]; intros s.
  - simpl. split; by intros [= <-].
  - rewrite fmap_cons, run_cons. simpl. split.
    + destruct (apply_op o s) as [s1|] eqn:Ho; simpl; [|done].
      intros Hr. exists s1, [], []. split_and!; [done| |done]. by apply IH.
    + intros (s1 & d1 & d2 & Hs & Hr & Hd).
      destruct (apply_op o s) as [s1'|]; simpl in *; [|done].
      injection Hs as <- <-. simpl in Hd. subst d2. by apply IH.
Qed.

Lemma apply_ops_app ops1 ops2 s :
  apply_ops (ops1 ++ ops2) s = apply_ops ops1 s ≫= apply_ops ops2.
Proof.
  revert s. induction ops1 as [|o ops1 IH]; intros s; simpl; [done|].
  destruct (apply_op o s) as [s1|]; simpl; [apply IH|done].
Qed.

(** A property of the state that every critical section preserves holds
    along every execution. *)
Lemma run_invariant (P : TimedQueue Key Info → Prop) :
  (∀ ev s s' dels, P s → step ev s = Some (s', dels) → P s') →
  ∀ evs s s' dels, P s → run evs s = Some (s', dels) → P s'.
Proof.
  intros Hstep evs. induction evs as [|ev evs IH]; intros s s' dels HP Hr.
  - by injection Hr as <- <-.
  - apply run_cons in Hr as (s1 & d1 & d2 & Hs & Hr & ->). eauto.
Qed.

Lemma apply_op_consistent o s s' :
  consistent s → apply_op o s = Some s' → consistent s'.
Proof.
  intros Hc. destruct o as [k i now|k|]; simpl.
  - destruct (reQueue k i now s) as [[s1 signal]|] eqn:Hq; simpl; [|done].
    intros [= <-]. by eapply reQueue_consistent.
  - by apply unsafeRemove_consistent.
  - intros [= <-]. by apply notify_consistent.
Qed.

Lemma step_consistent ev s s' dels :
  consistent s → step ev s = Some (s', dels) → consistent s'.
Proof.
  intros Hc. destruct ev as [o|now]; simpl.
  - destruct (apply_op o s) as [s1|] eqn:Ho; simpl; [|done].
    intros [= <- _]. by eapply apply_op_consistent.
  - destruct (expire_test now s) as [[e s1|d]|] eqn:Ht; simpl; [| |done].
    + intros [= <- _]. by eapply expire_test_consistent.
    + by intros [= <- _].
Qed.

Lemma run_consistent evs s s' dels :
  consistent s → run evs s = Some (s', dels) → consistent s'.
Proof. apply run_invariant. intros ????. apply step_consistent. Qed.

(** The producer operations never fail on a consistent queue. *)
Lemma apply_op_defined o s : consistent s → is_Some (apply_op o s).
Proof.
  intros Hc. destruct o as [k i now|k|]; simpl.
  - rewrite reQueue_spec by done. by eexists.
  - unfold remove. rewrite unsafeRemove_spec by done. by eexists.
  - by eexists.
Qed.

Lemma apply_ops_defined ops s : consistent s → is_Some (apply_ops ops s).
Proof.
  revert s. induction ops as [|o ops IH]; intros s Hc; simpl; [by eexists|].
  destruct (apply_op_defined o s Hc) as [s1 Ho]. rewrite Ho. simpl.
  apply IH. by eapply apply_op_consistent.
Qed.

(** ** What the critical sections keep *)

Lemma unsafeRemove_frame s s' k :
  unsafeRemove k s = Some s' →
  m_list s' `sublist_of` m_list s ∧ m_delay s' = m_delay s ∧
  m_break s' = m_break s.
Proof.
  unfold unsafeRemove. destruct (m_map s !! k) as [n|].
  - destruct (list_erase n (m_list s)) as [l'|] eqn:Hl; simpl; [|done].
    intros [= <-]. simpl. split_and!; [|done..].
    by eapply list_erase_sublist.
  - by intros [= <-].
Qed.

Lemma reQueue_frame s s' k i now signal :
  reQueue k i now s = Some (s', signal) →
  ∃ rest, elements s' = mkElement k (now + m_delay s) i :: rest ∧
          rest `sublist_of` elements s ∧
          m_delay s' = m_delay s ∧ m_break s' = m_break s.
Proof.
  unfold reQueue. destruct (unsafeRemove k s) as [s1|] eqn:Hr; simpl; [|done].
  apply unsafeRemove_frame in Hr as (Hsub & Hd & Hb).
  intros [= <- _]. exists (elements s1). unfold elements; cbn [m_list].
  rewrite fmap_cons, Hd. split_and!; [done| |done..]. by apply fmap_sublist.
Qed.

Lemma expire_test_frame s now r :
  expire_test now s = Some r →
  ∃ front e, elements s = front ++ [e] ∧
    match r with
    | Expired e' s' =>
        e' = e ∧ now > time e ∧ elements s' = front ∧
        m_delay s' = m_delay s ∧ m_break s' = m_break s
    | NotYet d => now ≤ time e ∧ d = time e - now
    end.
Proof.
  unfold expire_test. destruct (last (m_list s)) as [[n e]|] eqn:Hl; [|done].
  apply last_Some in Hl as [l0 Hl0].
  intros Hr. exists l0.*2, e. unfold elements. split.
  { by rewrite Hl0, fmap_app. }
  case_bool_decide; injection Hr as <-.
  - cbn [m_list m_delay m_break]. rewrite Hl0, removelast_last. done.
  - split; [lia|done].
Qed.

Lemma step_frame ev s s' dels :
  step ev s = Some (s', dels) →
  m_delay s' = m_delay s ∧ (m_break s = true → m_break s' = true).
Proof.
  destruct ev as [[k i now|k|]|now]; simpl.
  - destruct (reQueue k i now s) as [[s1 signal]|] eqn:Hq; simpl; [|done].
    intros [= <- _]. apply reQueue_frame in Hq as (? & _ & _ & -> & ->). done.
  - destruct (remove k s) as [s1|] eqn:Hr; simpl; [|done].
    intros [= <- _]. apply unsafeRemove_frame in Hr as (_ & -> & ->). done.
  - by intros [= <- _].
  - destruct (expire_test now s) as [r|] eqn:Ht; simpl; [|done].
    apply expire_test_frame in Ht as (front & e & _ & Hr).
    destruct r as [e' s1|d]; intros [= <- _]; [|done].
    by destruct Hr as (_ & _ & _ & -> & ->).
Qed.

Lemma run_frame evs s s' dels :
  run evs s = Some (s', dels) →
  m_delay s' = m_delay s ∧ (m_break s = true → m_break s' = true).
Proof.
  revert s dels. induction evs as [|ev evs IH]; intros s dels Hr.
  - by injection Hr as <- <-.
  - apply run_cons in Hr as (s1 & d1 & d2 & Hs & Hr & ->).
    apply step_frame in Hs as [Hd Hb]. apply IH in Hr as [Hd' Hb'].
    split; [congruence|auto].
Qed.

(** ** First in, first out *)

(** One critical section moves elements from the back of the list to the
    delivered ones, drops some, or adds the inserted one at the front. *)
Lemma step_fifo ev s s' dels :
  step ev s = Some (s', dels) →
  dels ++ reverse (elements s')
    `sublist_of` reverse (elements s) ++ inserted (m_delay s) [ev].
Proof.
  destruct ev as [[k i now|k|]|now]; simpl.
  - destruct (reQueue k i now s) as [[s1 signal]|] eqn:Hq; simpl; [|done].
    intros [= <- <-]. apply reQueue_frame in Hq as (rest & -> & Hsub & _).
    rewrite reverse_cons. simpl. apply sublist_app; [|done].
    by apply sublist_reverse.
  - destruct (remove k s) as [s1|] eqn:Hr; simpl; [|done].
    intros [= <- <-]. apply unsafeRemove_frame in Hr as (Hsub & _).
    simpl. rewrite app_nil_r. apply sublist_reverse.
    unfold elements. by apply fmap_sublist.
  - intros [= <- <-]. simpl. by rewrite app_nil_r.
  - destruct (expire_test now s) as [r|] eqn:Ht; simpl; [|done].
    apply expire_test_frame in Ht as (front & e & He & Hr).
    rewrite app_nil_r.
    destruct r as [e' s1|d]; intros [= <- <-]; [|done].
    destruct Hr as (-> & _ & -> & _). by rewrite He, reverse_snoc.
Qed.

Lemma inserted_app (d : Z) evs1 evs2 :
  inserted d (evs1 ++ evs2) = inserted d evs1 ++ inserted d evs2.
Proof. unfold inserted. apply omap_app. Qed.

Lemma run_fifo evs s s' dels :
  run evs s = Some (s', dels) →
  dels ++ reverse (elements s')
    `sublist_of` reverse (elements s) ++ inserted (m_delay s) evs.
Proof.
  revert s dels. induction evs as [|ev evs IH]; intros s dels Hr.
  - injection Hr as <- <-. simpl. by rewrite app_nil_r.
  - apply run_cons in Hr as (s1 & d1 & d2 & Hs & Hr & ->).
    apply IH in Hr. apply step_frame in Hs as Hf. destruct Hf as [Hd _].
    apply step_fifo in Hs. rewrite Hd in Hr.
    change (ev :: evs) with ([ev] ++ evs).
    rewrite inserted_app, <- app_assoc, (app_assoc (reverse _)).
    etrans; [|apply sublist_app; [exact Hs|reflexivity]].
    rewrite <- app_assoc. by apply sublist_app.
Qed.

Lemma run_fifo_new tps delay evs s dels :
  run evs (TimedQueue_new tps delay) = Some (s, dels) →
  dels ++ reverse (elements s) `sublist_of` inserted (seconds tps delay) evs.
Proof. intros Hr. by apply run_fifo in Hr. Qed.

(** ** Order of expiration *)

Lemma ordered_sublist c s s' :
  ordered c s → elements s' `sublist_of` elements s →
  m_delay s' = m_delay s → ordered c s'.
Proof.
  intros [Hs Hb] Hsub Hd. split.
  - by eapply sublist_StronglySorted.
  - rewrite Hd. apply Forall_forall. intros e He.
    eapply Forall_forall in Hb; [done|]. by eapply sublist_subseteq.
Qed.

Lemma reQueue_ordered c s s' k i now signal :
  ordered c s → c ≤ now → reQueue k i now s = Some (s', signal) →
  ordered now s'.
Proof.
  intros [Hs Hb] Hc Hq.
  apply reQueue_frame in Hq as (rest & Hel & Hsub & Hd & _).
  assert (Hrest : Forall (λ e, time e ≤ now + m_delay s) rest).
  { apply Forall_forall. intros e He.
    eapply Forall_forall in Hb; [|by eapply sublist_subseteq]. simpl in Hb. lia. }
  split; rewrite Hel.
  - constructor; [by eapply sublist_StronglySorted|done].
  - rewrite Hd. constructor; [simpl; lia|done].
Qed.

Lemma step_ordered c ev s s' dels :
  ordered c s → StronglySorted Z.le (c :: reQueue_clock [ev]) →
  step ev s = Some (s', dels) →
  ordered (default c (last (reQueue_clock [ev]))) s'.
Proof.
  intros Ho Hc. destruct ev as [[k i now|k|]|now]; simpl.
  - destruct (reQueue k i now s) as [[s1 signal]|] eqn:Hq; simpl; [|done].
    intros [= <- _]. eapply reQueue_ordered; [done| |done].
    apply StronglySorted_inv in Hc as [_ Hc]. simpl in Hc.
    by apply Forall_cons in Hc as [? _].
  - destruct (remove k s) as [s1|] eqn:Hr; simpl; [|done].
    intros [= <- _]. apply unsafeRemove_frame in Hr as (Hsub & Hd & _).
    eapply ordered_sublist; [done| |done]. unfold elements.
    by apply fmap_sublist.
  - by intros [= <- _].
  - destruct (expire_test now s) as [r|] eqn:Ht; simpl; [|done].
    apply expire_test_frame in Ht as (front & e & He & Hr).
    destruct r as [e' s1|d]; intros [= <- _]; [|done].
    destruct Hr as (_ & _ & Hf & Hd & _).
    eapply ordered_sublist; [done| |done]. rewrite Hf, He.
    by apply sublist_inserts_r.
Qed.

Lemma reQueue_clock_app evs1 evs2 :
  reQueue_clock (evs1 ++ evs2) = reQueue_clock evs1 ++ reQueue_clock evs2.
Proof. unfold reQueue_clock. apply omap_app. Qed.

Lemma run_ordered c evs s s' dels :
  ordered c s → StronglySorted Z.le (c :: reQueue_clock evs) →
  run evs s = Some (s', dels) →
  ordered (default c (last (reQueue_clock evs))) s'.
Proof.
  revert c s dels. induction evs as [|ev evs IH]; intros c s dels Ho Hc Hr.
  - by injection Hr as <- <-.
  - apply run_cons in Hr as (s1 & d1 & d2 & Hs & Hr & ->).
    change (ev :: evs) with ([ev] ++ evs) in Hc |- *.
    rewrite reQueue_clock_app in Hc |- *.
    destruct (reQueue_clock [ev]) as [|now [|]] eqn:Hev.
    + rewrite app_nil_l in Hc |- *. eapply IH; [|done..].
      eapply (step_ordered c) in Hs; [|done|rewrite Hev; by repeat constructor].
      by rewrite Hev in Hs.
    + eapply (step_ordered c) in Hs; [|done|].
      2:{ rewrite Hev. apply StronglySorted_inv in Hc as [Hc Hf].
          apply Forall_cons in Hf as [? _]. by repeat constructor. }
      rewrite Hev in Hs. simpl in Hs.
      apply StronglySorted_inv in Hc as [Hc _]. simpl in Hc.
      specialize (IH _ _ _ Hs Hc Hr). simpl.
      rewrite last_cons. by destruct (last (reQueue_clock evs)).
    + destruct ev as [[]|]; simpl in Hev; done.
Qed.

(** ** Calls of [waitUntilExpired] *)

Implicit Types (wakes : list (list (Op Key Info))).
Implicit Types (rounds : list (list (Op Key Info) * Time)).
Implicit Types (eff : Effect Key Info) (effs : list (Effect Key Info)).

Lemma after_Returned eff (out : Outcome Key Info) r effs s :
  after eff out = Returned r effs s →
  ∃ effs0, effs = eff :: effs0 ∧ out = Returned r effs0 s.
Proof. destruct out; simpl; intros [= <- <- <-]. eauto. Qed.

Lemma after_final eff (out : Outcome Key Info) :
  final (after eff out) = final out.
Proof. by destruct out. Qed.

Lemma after_callbacks eff (out : Outcome Key Info) :
  (∀ k i, eff ≠ OnExpired k i) →
  callbacks (effects (after eff out)) = callbacks (effects out).
Proof. intros Hne. destruct out, eff; simpl; try done; by edestruct Hne. Qed.

Lemma waitUntilExpired_unfold wakes rounds s :
  waitUntilExpired wakes rounds s =
  match wait_test s with
  | WaitReturn => Returned tt [] s
  | WaitProceed => expire_loop rounds s
  | WaitBlock =>
      match wakes with
      | [] => Pending [CondWait] s
      | ops :: wakes' =>
          match apply_ops ops s with
          | None => Undefined
          | Some s' => after CondWait (waitUntilExpired wakes' rounds s')
          end
      end
  end.
Proof. by destruct wakes. Qed.

(** A call that returns from the second loop has invoked the callback, once
    and as its last effect, on the back element of the list it found. *)
Lemma expire_loop_Returned rounds s r effs s' :
  expire_loop rounds s = Returned r effs s' →
  ∃ e ds, effs = (SleepFor <$> ds) ++ [OnExpired (key e) (info e)].
Proof.
  revert s effs. induction rounds as [|[ops now] rounds IH]; intros s effs;
    simpl; [done|].
  destruct (apply_ops ops s) as [s1|]; [|done].
  destruct (expire_test now s1) as [[e s2|d]|]; [| |done].
  - intros [= <- <- <-]. by exists e, [].
  - intros (effs0 & -> & Hl)%after_Returned.
    apply IH in Hl as (e & ds & ->). by exists e, (d :: ds).
Qed.

Lemma callbacks_sleeps (ds : list Z) effs :
  callbacks ((SleepFor <$> ds) ++ effs) = callbacks effs.
Proof. induction ds as [|d ds IH]; [done|]. by rewrite fmap_cons. Qed.

Lemma callbacks_waits (m : nat) effs :
  callbacks (replicate m CondWait ++ effs) = callbacks effs.
Proof. induction m as [|m IH]; [done|]. by simpl. Qed.

(** The shape of every returning call: some waits, then either the return
    of line 81 from an empty queue whose flag is set, or some sleeps and
    one callback. *)
Lemma waitUntilExpired_Returned wakes rounds s r effs s' :
  waitUntilExpired wakes rounds s = Returned r effs s' →
  ∃ m, (effs = replicate m CondWait ∧ m_break s' = true ∧ m_list s' = []) ∨
       (∃ e ds, effs = replicate m CondWait ++ (SleepFor <$> ds) ++
                       [OnExpired (key e) (info e)]).
Proof.
  revert s effs. induction wakes as [|ops wakes IH]; intros s effs;
    rewrite waitUntilExpired_unfold; unfold wait_test;
    destruct (m_list s) as [|x l] eqn:Hl.
  - destruct (m_break s) eqn:Hb; [|done].
    intros [= <- <- <-]. exists 0%nat. by left.
  - intros (e & ds & ->)%expire_loop_Returned. exists 0%nat. right. eauto.
  - destruct (m_break s) eqn:Hb.
    + intros [= <- <- <-]. exists 0%nat. by left.
    + destruct (apply_ops ops s) as [s1|]; [|done].
      intros (effs0 & -> & Hw)%after_Returned.
      apply IH in Hw as [m [(-> & ? & ?)|(e & ds & ->)]].
      * exists (S m). by left.
      * exists (S m). right. by exists e, ds.
  - intros (e & ds & ->)%expire_loop_Returned. exists 0%nat. right. eauto.
Qed.

(** The state a call leaves is the state of an execution: the producer
    operations of its schedule and its own passes through the locked
    block. *)
Lemma expire_loop_run rounds s s' :
  final (expire_loop rounds s) = Some s' →
  ∃ evs dels, run evs s = Some (s', dels) ∧
    callbacks (effects (expire_loop rounds s))
    = (λ e, (key e, info e)) <$> dels.
Proof.
  revert s. induction rounds as [|[ops now] rounds IH]; intros s; simpl.
  - intros [= <-]. by exists [], [].
  - destruct (apply_ops ops s) as [s1|] eqn:Ho; [|done].
    apply run_ops in Ho.
    destruct (expire_test now s1) as [[e s2|d]|] eqn:Ht; [| |done].
    + intros [= <-]. exists ((EvOp <$> ops) ++ [EvExpire now]), [e].
      split; [|done]. apply run_app. exists s1, [], [e].
      split_and!; [done| |done]. simpl. by rewrite Ht.
    + rewrite after_final, after_callbacks by done.
      intros (evs & dels & Hr & Hc)%IH.
      exists ((EvOp <$> ops) ++ EvExpire now :: evs), dels.
      split; [|done]. apply run_app. exists s1, [], dels.
      split_and!; [done| |done]. apply run_cons. exists s1, [], dels.
      split_and!; [|done..]. simpl. by rewrite Ht.
Qed.

Lemma waitUntilExpired_run wakes rounds s s' :
  final (waitUntilExpired wakes rounds s) = Some s' →
  ∃ evs dels, run evs s = Some (s', dels) ∧
    callbacks (effects (waitUntilExpired wakes rounds s))
    = (λ e, (key e, info e)) <$> dels.
Proof.
  revert s. induction wakes as [|ops wakes IH]; intros s;
    rewrite waitUntilExpired_unfold; destruct (wait_test s);
    try (by apply expire_loop_run);
    try (intros [= <-]; by exists [], []).
  destruct (apply_ops ops s) as [s1|] eqn:Ho; [|done].
  apply run_ops in Ho. rewrite after_final, after_callbacks by done.
  intros (evs & dels & Hr & Hc)%IH. exists ((EvOp <$> ops) ++ evs), dels.
  split; [|done]. apply run_app. by exists s1, [], dels.
Qed.

Lemma sleeps_waits (m : nat) :
  sleeps (replicate m (CondWait (Key := Key) (Info := Info))) = [].
Proof. induction m as [|m IH]; [done|]. by simpl. Qed.

(** A call that invokes the callback hands it the back element of the list
    as it stood, after the producer operations [ops] of the schedule that
    came first, when the call took the lock for the last time. *)
Lemma expire_loop_delivers rounds s r effs s' :
  expire_loop rounds s = Returned r effs s' →
  ∃ ops s0 e, apply_ops ops s = Some s0 ∧
    elements s0 = elements s' ++ [e] ∧
    callbacks effs = [(key e, info e)].
Proof.
  revert s effs. induction rounds as [|[ops now] rounds IH]; intros s effs;
    simpl; [done|].
  destruct (apply_ops ops s) as [s1|] eqn:Ho; [|done].
  destruct (expire_test now s1) as [[e s2|d]|] eqn:Ht; [| |done].
  - intros [= <- <- <-].
    apply expire_test_frame in Ht as (front & e' & He & -> & _ & <- & _).
    by exists ops, s1, e'.
  - intros (effs0 & -> & Hl)%after_Returned.
    apply IH in Hl as (ops' & s0 & e & Ho' & He & Hc).
    exists (ops ++ ops'), s0, e. split_and!; [|done..].
    rewrite apply_ops_app, Ho. done.
Qed.

Lemma waitUntilExpired_delivers wakes rounds s r effs s' :
  waitUntilExpired wakes rounds s = Returned r effs s' →
  callbacks effs ≠ [] →
  ∃ ops s0 e, apply_ops ops s = Some s0 ∧
    elements s0 = elements s' ++ [e] ∧
    callbacks effs = [(key e, info e)].
Proof.
  revert s effs. induction wakes as [|ops wakes IH]; intros s effs;
    rewrite waitUntilExpired_unfold; destruct (wait_test s).
  - by intros [= <- <- <-].
  - done.
  - intros Hl _. exact (expire_loop_delivers _ _ _ _ _ Hl).
  - by intros [= <- <- <-].
  - destruct (apply_ops ops s) as [s1|] eqn:Ho; [|done].
    intros (effs0 & -> & Hw)%after_Returned Hcb.
    apply IH in Hw as (ops' & s0 & e & Ho' & He & Hc); [|done].
    exists (ops ++ ops'), s0, e. split_and!; [|done..].
    rewrite apply_ops_app, Ho. done.
  - intros Hl _. exact (expire_loop_delivers _ _ _ _ _ Hl).
Qed.

(** ** The operations, one by one *)

Lemma filter_none {A} (P : A → Prop) `{∀ x, Decision (P x)} (xs : list A) :
  Forall (λ x, ¬ P x) xs → filter P xs = [].
Proof.
  induction 1 as [|x xs Hx _ IH]; [done|].
  by rewrite filter_cons_False.
Qed.

Lemma entries_of_drop s k :
  filter (λ e, key e = k) (filter (λ x, key x.2 ≠ k) (m_list s)).*2 = [].
Proof.
  apply filter_none, Forall_forall. intros e He.
  apply list_elem_of_fmap in He as (x & -> & Hx).
  by apply list_elem_of_filter in Hx as [Hx _].
Qed.

Lemma apply_ops_consistent ops s s' :
  consistent s → apply_ops ops s = Some s' → consistent s'.
Proof.
  intros Hc Ho. apply run_ops in Ho. by eapply run_consistent.
Qed.

Lemma apply_ops_delay ops s s' :
  apply_ops ops s = Some s' → m_delay s' = m_delay s.
Proof. intros Ho. apply run_ops in Ho. by apply run_frame in Ho as [? _]. Qed.

(** C1.  On a queue whose map and list agree, [reQueue k i now] always
    succeeds.  It first removes the entry of [k] exactly as [remove k]
    does, then pushes the element [{k, now + m_delay, i}] at the front
    (the newest end) of the list and records its node in the map; after
    it the list holds exactly one entry of key [k], the new one.  After
    any sequence of [reQueue] calls on the same key, the one entry of
    that key carries the payload and the expiration time of the last
    call. *)
Theorem reQueue_single_live_entry s k i now :
  consistent s →
  (∃ s' s1 signal,
     reQueue k i now s = Some (s', signal) ∧
     signal = bool_decide (m_list s = []) ∧
     remove k s = Some s1 ∧
     m_list s' =
       (new_node (m_list s1), mkElement k (now + m_delay s) i) :: m_list s1 ∧
     head (m_list s') = Some (new_node (m_list s1),
                              mkElement k (now + m_delay s) i) ∧
     m_map s' !! k = Some (new_node (m_list s1)) ∧
     (∀ k', k' ≠ k → m_map s' !! k' = m_map s1 !! k') ∧
     entries_of k s' = [mkElement k (now + m_delay s) i] ∧
     consistent s') ∧
  (∀ earlier : list (Info * Time),
     ∃ s2,
       apply_ops (((λ c, OpReQueue k c.1 c.2) <$> earlier)
                    ++ [OpReQueue k i now]) s = Some s2 ∧
       entries_of k s2 = [mkElement k (now + m_delay s) i]).
Proof.
  intros Hc.
  assert (Hone : ∀ s0, consistent s0 →
    ∃ s' , reQueue k i now s0 = Some (s', bool_decide (m_list s0 = [])) ∧
           entries_of k s' = [mkElement k (now + m_delay s0) i]).
  { intros s0 Hc0. eexists. split; [by apply reQueue_spec|].
    unfold entries_of, elements. cbn [m_list]. rewrite fmap_cons.
    rewrite filter_cons_True by done. by rewrite entries_of_drop. }
  split.
  - eexists _, _, _. split_and!.
    + by apply reQueue_spec.
    + done.
    + unfold remove. by apply unsafeRemove_spec.
    + done.
    + done.
    + cbn [m_map m_list]. apply lookup_insert_eq.
    + intros k' Hk'. cbn [m_map]. by rewrite lookup_insert_ne.
    + destruct (Hone s Hc) as (s' & Hq & He).
      rewrite reQueue_spec in Hq by done. by injection Hq as <-.
    + eapply reQueue_consistent; [done|]. by apply reQueue_spec.
  - intros earlier. rewrite apply_ops_app.
    destruct (apply_ops_defined ((λ c, OpReQueue k c.1 c.2) <$> earlier) s Hc)
      as [s1 Hs1].
    rewrite Hs1. simpl.
    destruct (Hone s1) as (s2 & Hq & He); [by eapply apply_ops_consistent|].
    exists s2. rewrite Hq. simpl. split; [done|].
    by rewrite He, (apply_ops_delay _ _ _ Hs1).
Qed.

(** C7.  On a queue whose map and list agree, [remove k] never fails.
    When the list holds an entry of key [k], the entry leaves the list and
    the key leaves the map, while every other entry keeps its place and
    every other key its mapping, and delay and flag stay as they are;
    when the list holds no entry of key [k], the queue is unchanged. *)
Theorem remove_frame s k :
  consistent s →
  (k ∉ keys s → remove k s = Some s) ∧
  (k ∈ keys s →
     ∃ s', remove k s = Some s' ∧
       m_list s' = filter (λ x, key x.2 ≠ k) (m_list s) ∧
       (k ∉ keys s') ∧
       m_map s' !! k = None ∧
       (∀ k', k' ≠ k → m_map s' !! k' = m_map s !! k') ∧
       m_delay s' = m_delay s ∧ m_break s' = m_break s).
Proof.
  intros Hc. split.
  - intros Hk. unfold remove, unsafeRemove.
    destruct (m_map s !! k) as [n|] eqn:Hm; [|done].
    apply (consistent_map _ Hc) in Hm as (e & He & Hke). exfalso. apply Hk.
    unfold keys, elements. rewrite <- Hke.
    apply list_elem_of_fmap_2. by apply (list_elem_of_fmap_2 snd _ (n, e)).
  - intros _. eexists. split; [by apply unsafeRemove_spec|].
    cbn [m_map m_list m_delay m_break]. split_and!; try done.
    + unfold keys, elements. cbn [m_list]. intros Hin.
      apply list_elem_of_fmap in Hin as (e & Hke & He).
      apply list_elem_of_fmap in He as (x & -> & Hx).
      apply list_elem_of_filter in Hx as [Hx _]. by apply Hx.
    + apply lookup_delete_eq.
    + intros k' Hk'. by apply lookup_delete_ne.
Qed.

(** C8.  [notify] sets the flag and touches nothing else, and calling it
    again, any number of times, changes nothing more. *)
Theorem notify_idempotent s (times : nat) :
  Nat.iter (S times) notify s = notify s ∧
  notify (notify s) = notify s ∧
  m_break (notify s) = true ∧
  m_list (notify s) = m_list s ∧
  m_map (notify s) = m_map s ∧
  m_delay (notify s) = m_delay s.
Proof.
  split_and!; try done.
  induction times as [|times IH]; [done|].
  change (Nat.iter (S (S times)) notify s)
    with (notify (Nat.iter (S times) notify s)).
  by rewrite IH.
Qed.

(** C2, as the code has it.  When the list is not empty, a pass of the
    second loop looks at the back element.  If [now > time] (strictly), the
    element leaves the list and its key the map, the callback is invoked
    once on its key and payload, and the call returns.  If [now <= time],
    nothing is removed and the thread sleeps for exactly [time - now]
    before the next pass. *)
Theorem expire_pass_strict s now n e wakes rounds :
  consistent s → last (m_list s) = Some (n, e) →
  (now > time e →
     ∃ s', expire_test now s = Some (Expired e s') ∧
       m_list s' = removelast (m_list s) ∧
       m_map s' = delete (key e) (m_map s) ∧
       (key e ∉ keys s') ∧
       m_map s' !! key e = None ∧
       waitUntilExpired wakes (([], now) :: rounds) s
       = Returned tt [OnExpired (key e) (info e)] s') ∧
  (now ≤ time e →
     expire_test now s = Some (NotYet (time e - now)) ∧
     waitUntilExpired wakes (([], now) :: rounds) s
     = after (SleepFor (time e - now)) (expire_loop rounds s)).
Proof.
  intros Hc Hl.
  assert (Hw : waitUntilExpired wakes (([], now) :: rounds) s
               = expire_loop (([], now) :: rounds) s).
  { rewrite waitUntilExpired_unfold. unfold wait_test.
    destruct (m_list s); [done|done]. }
  rewrite Hw. cbn [expire_loop apply_ops].
  pose proof (expire_test_spec _ now _ _ Hc Hl) as Hspec.
  pose proof (removelast_filter _ _ _ Hc Hl) as Hrm.
  split; intros Hnow.
  - rewrite bool_decide_true in Hspec by done. rewrite Hspec.
    eexists. split; [done|]. cbn [m_list m_map]. split_and!; try done.
    + unfold keys, elements. cbn [m_list]. intros Hin.
      apply list_elem_of_fmap in Hin as (e' & Hke & He).
      apply list_elem_of_fmap in He as (x & -> & Hx).
      apply list_elem_of_filter in Hx as [Hx _]. by apply Hx.
    + apply lookup_delete_eq.
  - rewrite bool_decide_false in Hspec by lia. by rewrite Hspec.
Qed.

(** C3.  Along every execution of a new queue, the delivered elements
    followed by the live ones from the back of the list to its front form
    a subsequence of the inserted elements in the order of insertion: the
    elements are delivered in the order in which they were inserted, and
    the back of the list is the earliest inserted live one.  Every pass of
    a consumer that delivers takes the back element, and so does every
    call that invokes the callback.  (The payload type is arbitrary: with
    payloads that differ from one insertion to the next, the subsequence
    fixes the position of every delivery among the insertions.) *)
Theorem delivery_order_fifo tps delay evs s dels :
  run evs (TimedQueue_new tps delay) = Some (s, dels) →
  dels ++ reverse (elements s)
    `sublist_of` inserted (seconds tps delay) evs ∧
  (∀ now s1 d1, step (EvExpire now) s = Some (s1, d1) →
     (d1 = [] ∧ s1 = s) ∨
     (∃ e, d1 = [e] ∧ last (elements s) = Some e ∧
           elements s = elements s1 ++ [e])) ∧
  (∀ wakes rounds r effs s',
     waitUntilExpired wakes rounds s = Returned r effs s' →
     callbacks effs ≠ [] →
     ∃ ops s0 e, apply_ops ops s = Some s0 ∧
       last (elements s0) = Some e ∧
       elements s0 = elements s' ++ [e] ∧
       callbacks effs = [(key e, info e)]).
Proof.
  intros Hr. split_and!.
  - by apply run_fifo_new.
  - intros now s1 d1. simpl.
    destruct (expire_test now s) as [res|] eqn:Ht; simpl; [|done].
    apply expire_test_frame in Ht as (front & e & He & Hres).
    destruct res as [e' s2|d]; intros [= <- <-]; [right|by left].
    destruct Hres as (-> & _ & -> & _). exists e.
    by rewrite He, last_snoc.
  - intros wakes rounds r effs s' Hw Hcb.
    destruct (waitUntilExpired_delivers _ _ _ _ _ _ Hw Hcb)
      as (ops & s0 & e & Ho & He & Hc).
    exists ops, s0, e. by rewrite He, last_snoc.
Qed.

(** C4.  Along every execution of a new queue in which the clock readings
    of the [reQueue] calls do not decrease, the list is sorted by
    expiration time, latest at the front and earliest at the back, and its
    order is the reverse of the order of insertion; every further critical
    section keeps it so. *)
Theorem list_sorted_by_expiration tps delay evs s dels :
  run evs (TimedQueue_new tps delay) = Some (s, dels) →
  Sorted Z.le (reQueue_clock evs) →
  newest_first (elements s) ∧
  reverse (elements s) `sublist_of` inserted (seconds tps delay) evs ∧
  (∀ oldest e, last (elements s) = Some oldest → e ∈ elements s →
     time oldest ≤ time e) ∧
  (∀ newest e, head (elements s) = Some newest → e ∈ elements s →
     time e ≤ time newest) ∧
  (∀ ev s1 d1, step ev s = Some (s1, d1) →
     Sorted Z.le (reQueue_clock (evs ++ [ev])) →
     newest_first (elements s1)).
Proof.
  assert (Hgen : ∀ evs0 s0 d0,
    run evs0 (TimedQueue_new tps delay) = Some (s0, d0) →
    Sorted Z.le (reQueue_clock evs0) → newest_first (elements s0)).
  { intros evs0 s0 d0 Hr Hs.
    apply (Sorted_StronglySorted _) in Hs.
    set (c := default 0 (head (reQueue_clock evs0))).
    eapply (run_ordered c) in Hr as [Hsorted _]; [done|by repeat constructor|].
    subst c. destruct (reQueue_clock evs0) as [|c0 cs]; simpl.
    - by repeat constructor.
    - constructor; [done|]. apply StronglySorted_inv in Hs as [_ Hf].
      constructor; [lia|done]. }
  intros Hr Hs. pose proof (Hgen _ _ _ Hr Hs) as Hsorted.
  split_and!; [done| | | |].
  - apply run_fifo_new in Hr.
    etrans; [|exact Hr]. by apply sublist_inserts_l.
  - intros oldest e Hl He. apply last_Some in Hl as [front Hfront].
    unfold newest_first in Hsorted. rewrite Hfront in Hsorted, He.
    apply elem_of_app in He as [He|He].
    + apply (StronglySorted_app_1_elem_of _ _ _ _ oldest Hsorted He).
      apply list_elem_of_here.
    + apply list_elem_of_singleton in He as ->. lia.
  - intros newest e Hh He. destruct (elements s) as [|x xs]; [done|].
    injection Hh as ->. apply elem_of_cons in He as [->|He]; [lia|].
    apply StronglySorted_inv in Hsorted as [_ Hf].
    by eapply Forall_forall in Hf.
  - intros ev s1 d1 Hstep Hs'. apply (Hgen (evs ++ [ev]) s1 (dels ++ d1)); [|done].
    apply run_app. exists s, dels, d1. split_and!; [done| |done].
    simpl. rewrite Hstep. simpl. by rewrite app_nil_r.
Qed.

Lemma returned_callbacks wakes rounds s r effs s' :
  waitUntilExpired wakes rounds s = Returned r effs s' →
  (callbacks effs = [] ∧ sleeps effs = [] ∧
   m_break s' = true ∧ m_list s' = []) ∨
  (∃ k i, callbacks effs = [(k, i)]).
Proof.
  intros Hw.
  apply waitUntilExpired_Returned in Hw as [m [(-> & Hb & Hl)|(e & ds & ->)]].
  - left. split_and!; [|apply sleeps_waits|done..].
    rewrite <- (app_nil_r (replicate m CondWait)). apply callbacks_waits.
  - right. exists (key e), (info e).
    by rewrite callbacks_waits, callbacks_sleeps.
Qed.

Lemma consistent_dom s :
  consistent s → dom (m_map s) = list_to_set (keys s).
Proof.
  intros Hc. apply set_eq. intros k.
  rewrite elem_of_dom, elem_of_list_to_set. unfold keys, elements. split.
  - intros [n Hn]. apply (consistent_map _ Hc) in Hn as (e & He & <-).
    apply list_elem_of_fmap_2. by apply (list_elem_of_fmap_2 snd _ (n, e)).
  - intros Hin. apply list_elem_of_fmap in Hin as (e & -> & He).
    apply list_elem_of_fmap in He as ([n e'] & -> & He).
    exists n. apply (consistent_map _ Hc). eauto.
Qed.

(** On a consistent queue no call runs into undefined behaviour as long as
    the list is not empty whenever the second loop takes the lock.  The
    producer operations never fail; only [back()] can. *)
Lemma expire_test_defined s now :
  m_list s ≠ [] → is_Some (expire_test now s).
Proof.
  intros Hne. unfold expire_test.
  destruct (last (m_list s)) as [[n e]|] eqn:Hl.
  - case_bool_decide; by eexists.
  - by apply last_None in Hl.
Qed.

Lemma expire_loop_defined rounds s :
  m_list s ≠ [] → Forall (λ rd, rd.1 = []) rounds →
  is_Some (final (expire_loop rounds s)).
Proof.
  intros Hne Hq. induction Hq as [|[ops now] rounds Hops _ IH]; simpl.
  - by eexists.
  - simpl in Hops. subst ops. simpl.
    destruct (expire_test_defined s now Hne) as [[e s1|d] ->].
    + by eexists.
    + by rewrite after_final.
Qed.

Lemma waitUntilExpired_defined wakes rounds s :
  consistent s → Forall (λ rd, rd.1 = []) rounds →
  is_Some (final (waitUntilExpired wakes rounds s)).
Proof.
  intros Hc Hq. revert s Hc.
  induction wakes as [|ops wakes IH]; intros s Hc;
    rewrite waitUntilExpired_unfold; unfold wait_test;
    destruct (m_list s) as [|x l] eqn:Hl;
    try (apply expire_loop_defined; [by rewrite Hl|done]);
    destruct (m_break s); try by eexists.
  destruct (apply_ops_defined ops s Hc) as [s1 Ho]. rewrite Ho, after_final.
  apply IH. by eapply apply_ops_consistent.
Qed.

(** C5.  A call that finds the flag set and the list empty returns at
    once, whatever the schedule: without waiting or sleeping, without
    invoking the callback, and leaving the queue as it is.  It is the only
    way to return without a callback: a call that returns with no callback
    invocation leaves an empty queue with the flag set and has not slept,
    and every other returning call invokes the callback exactly once. *)
Theorem shutdown_return_immediate s wakes rounds :
  (m_break s = true → m_list s = [] →
     waitUntilExpired wakes rounds s = Returned tt [] s) ∧
  (∀ r effs s',
     waitUntilExpired wakes rounds s = Returned r effs s' →
     (callbacks effs = [] ∧ sleeps effs = [] ∧
      m_break s' = true ∧ m_list s' = []) ∨
     (∃ k i, callbacks effs = [(k, i)])).
Proof.
  split.
  - intros Hb Hl. rewrite waitUntilExpired_unfold. unfold wait_test.
    by rewrite Hl, Hb.
  - intros r effs s'. apply returned_callbacks.
Qed.

(** C6, as the code has it.  The function returns [void]: every returning
    call yields the same value, so the value does not tell the two ways of
    returning apart.  What tells them apart is the callback: no invocation
    on the return of line 81, exactly one otherwise. *)
Theorem return_value_is_unit wakes rounds s r effs s' :
  waitUntilExpired wakes rounds s = Returned r effs s' →
  result (waitUntilExpired wakes rounds s) = Some tt ∧
  ((callbacks effs = [] ∧ m_break s' = true ∧ m_list s' = []) ∨
   (∃ k i, callbacks effs = [(k, i)])).
Proof.
  intros Hw. split.
  - rewrite Hw. by destruct r.
  - destruct (returned_callbacks _ _ _ _ _ _ Hw)
      as [(? & _ & ? & ?)|?]; [by left|by right].
Qed.

(** C9.  In every state that an execution of a new queue reaches, map and
    list agree: the keys of the map are the keys of the list, no key and
    no node occurs twice in the list, and the map sends a key to a node
    exactly when that node holds an element of that key.  [reQueue],
    [remove] and [waitUntilExpired] lead from such a state to such a
    state: the first two always, and a call of [waitUntilExpired]
    whenever it is defined, which it is at least when no other thread
    touches the queue during its second loop. *)
Theorem map_list_agree tps delay evs s dels :
  run evs (TimedQueue_new tps delay) = Some (s, dels) →
  dom (m_map s) = list_to_set (keys s) ∧
  NoDup (keys s) ∧
  NoDup (m_list s).*1 ∧
  (∀ k n, m_map s !! k = Some n ↔ ∃ e, (n, e) ∈ m_list s ∧ key e = k) ∧
  (∀ k i now, ∃ s' signal,
     reQueue k i now s = Some (s', signal) ∧ consistent s') ∧
  (∀ k, ∃ s', remove k s = Some s' ∧ consistent s') ∧
  (∀ wakes rounds s',
     final (waitUntilExpired wakes rounds s) = Some s' → consistent s') ∧
  (∀ wakes rounds,
     Forall (λ rd, rd.1 = []) rounds →
     is_Some (final (waitUntilExpired wakes rounds s))).
Proof.
  intros Hr.
  assert (Hc : consistent s).
  { eapply run_consistent; [|done]. apply consistent_new. }
  split_and!.
  - by apply consistent_dom.
  - apply (consistent_keys _ Hc).
  - apply (consistent_nodes _ Hc).
  - apply (consistent_map _ Hc).
  - intros k i now. eexists _, _. split; [by apply reQueue_spec|].
    eapply reQueue_consistent; [done|]. by apply reQueue_spec.
  - intros k. eexists. split; [by apply unsafeRemove_spec|].
    by apply consistent_drop.
  - intros wakes rounds s' Hf.
    apply waitUntilExpired_run in Hf as (evs' & dels' & Hr' & _).
    by eapply run_consistent.
  - intros wakes rounds Hq. by apply waitUntilExpired_defined.
Qed.

(** C10.  The flag, once set by [notify], stays set: no critical section
    clears it, along any execution, and no call of [waitUntilExpired]
    does.  Hence every later call that finds the list empty returns at
    once without invoking the callback. *)
Theorem shutdown_irreversible s evs s' dels :
  run evs (notify s) = Some (s', dels) →
  m_break s' = true ∧
  (m_list s' = [] →
     ∀ wakes rounds, waitUntilExpired wakes rounds s' = Returned tt [] s') ∧
  (∀ wakes rounds s'',
     final (waitUntilExpired wakes rounds s') = Some s'' →
     m_break s'' = true).
Proof.
  intros Hr. apply run_frame in Hr as [_ Hb]. specialize (Hb eq_refl).
  split_and!; [done| |].
  - intros Hl wakes rounds. rewrite waitUntilExpired_unfold. unfold wait_test.
    by rewrite Hl, Hb.
  - intros wakes rounds s'' Hf.
    apply waitUntilExpired_run in Hf as (evs' & dels' & Hr' & _).
    apply run_frame in Hr' as [_ Hb']. auto.
Qed.

(** ** Further properties of the producer operations *)

Lemma list_erase_length l l' n :
  list_erase n l = Some l' → length l = S (length l').
Proof.
  revert l'. induction l as [|x l IH]; intros l' Her; simpl in Her; [done|].
  case_decide.
  - by injection Her as <-.
  - destruct (list_erase n l) as [l0|]; [|done].
    injection Her as <-. simpl. f_equal. by apply IH.
Qed.

Lemma consistent_lookup_keys s k :
  consistent s → k ∈ keys s ↔ is_Some (m_map s !! k).
Proof.
  intros Hc. rewrite <- elem_of_dom, (consistent_dom _ Hc).
  by rewrite elem_of_list_to_set.
Qed.

Lemma filter_elements (P : Element Key Info → Prop)
    `{∀ e, Decision (P e)} l :
  filter P l.*2 = (filter (λ x, P x.2) l).*2.
Proof.
  induction l as [|x l IH]; [done|].
  rewrite fmap_cons, !filter_cons, IH. by destruct (decide (P x.2)).
Qed.

(** X1.  [remove] twice on a key is [remove] once, and removals of two keys
    can be done in either order. *)
Theorem remove_idempotent_commutes s k1 k2 :
  consistent s →
  remove k1 s ≫= remove k1 = remove k1 s ∧
  remove k1 s ≫= remove k2 = remove k2 s ≫= remove k1.
Proof.
  intros Hc. unfold remove.
  rewrite !(unsafeRemove_spec s) by done. cbn [mbind option_bind].
  rewrite !unsafeRemove_spec by (by apply consistent_drop).
  cbn [m_map m_list m_delay m_break]. split.
  - rewrite delete_delete_eq, list_filter_filter_l by done. done.
  - rewrite (delete_delete _ k1 k2), !list_filter_filter.
    do 2 f_equal. apply list_filter_iff. intros x. tauto.
Qed.

(** X2.  [remove k] right after [reQueue k] undoes the insertion and leaves
    what [remove k] alone would have left. *)
Theorem remove_after_reQueue s s' k i now signal :
  consistent s → reQueue k i now s = Some (s', signal) →
  remove k s' = remove k s.
Proof.
  intros Hc Hq. pose proof (reQueue_consistent _ _ _ _ _ _ Hc Hq) as Hc'.
  rewrite reQueue_spec in Hq by done. injection Hq as <- _.
  unfold remove. rewrite !unsafeRemove_spec by done.
  cbn [m_map m_list m_delay m_break].
  rewrite delete_insert_eq, delete_delete_eq.
  rewrite filter_cons_False by (simpl; naive_solver).
  by rewrite list_filter_filter_l.
Qed.

(** X3.  [reQueue k] after [remove k] builds the same queue as [reQueue k]
    alone: a refresh is a removal followed by an insertion.  Only the
    wake-up differs: a refresh of a queued key never signals. *)
Theorem reQueue_after_remove s s1 k i now :
  consistent s → remove k s = Some s1 →
  fst <$> reQueue k i now s1 = fst <$> reQueue k i now s ∧
  (k ∈ keys s → snd <$> reQueue k i now s = Some false).
Proof.
  intros Hc Hr. pose proof (unsafeRemove_consistent _ _ _ Hc Hr) as Hc1.
  unfold remove in Hr. rewrite unsafeRemove_spec in Hr by done.
  injection Hr as <-. rewrite !reQueue_spec by done.
  cbn [m_map m_list m_delay m_break fmap option_fmap option_map fst snd].
  split.
  - by rewrite delete_delete_eq, list_filter_filter_l.
  - intros Hk. f_equal. apply bool_decide_eq_false. intros Hnil.
    unfold keys, elements in Hk. rewrite Hnil in Hk.
    by apply elem_of_nil in Hk.
Qed.

(** X4.  [reQueue k] leaves the entries of the other keys where they are, with
    their nodes and mappings, and keeps delay and flag.  The list grows by
    one when [k] was not queued and keeps its length when it was. *)
Theorem reQueue_keeps_others s s' k i now signal :
  consistent s → reQueue k i now s = Some (s', signal) →
  filter (λ x, key x.2 ≠ k) (m_list s')
  = filter (λ x, key x.2 ≠ k) (m_list s) ∧
  (∀ k', k' ≠ k →
     m_map s' !! k' = m_map s !! k' ∧ entries_of k' s' = entries_of k' s) ∧
  m_delay s' = m_delay s ∧ m_break s' = m_break s ∧
  length (m_list s')
  = (if decide (k ∈ keys s) then length (m_list s)
     else S (length (m_list s))).
Proof.
  intros Hc Hq. pose proof Hq as Hq'.
  rewrite reQueue_spec in Hq by done. injection Hq as <- _.
  cbn [m_map m_list m_delay m_break]. split_and!; try done.
  - rewrite filter_cons_False by (simpl; naive_solver).
    by rewrite list_filter_filter_l.
  - intros k' Hk'. split.
    + by rewrite lookup_insert_ne, lookup_delete_ne.
    + unfold entries_of, elements. cbn [m_list]. rewrite fmap_cons.
      rewrite filter_cons_False by (simpl; congruence).
      rewrite !filter_elements, list_filter_filter. do 2 f_equal.
      apply list_filter_iff. intros x. split; [by intros [? _]|].
      intros Hx. split; [done|congruence].
  - simpl. case_decide as Hk.
    + apply (consistent_lookup_keys _ _ Hc) in Hk as [n Hn].
      apply (consistent_map _ Hc) in Hn as Hin. destruct Hin as (e & Hin & _).
      destruct (list_erase_Some _ _ _ Hin) as [l' Hl'].
      rewrite (list_erase_length _ _ _ Hl').
      apply list_erase_filter in Hl' as Hf; [|by apply consistent_nodes].
      pose proof (unsafeRemove_spec s k Hc) as Hspec.
      unfold unsafeRemove in Hspec. rewrite Hn, Hl' in Hspec.
      simpl in Hspec. injection Hspec as ->. done.
    + f_equal. rewrite filter_all; [done|]. apply Forall_forall.
      intros x Hx Hkx. apply Hk. unfold keys, elements. rewrite <- Hkx.
      apply list_elem_of_fmap_2. by apply list_elem_of_fmap_2.
Qed.

(** ** Further properties of [waitUntilExpired] *)

Lemma unsafeRemove_empty s k :
  consistent s → m_list s = [] → unsafeRemove k s = Some s.
Proof.
  intros Hc Hl. unfold unsafeRemove.
  destruct (m_map s !! k) as [n|] eqn:Hk; [|done].
  apply (consistent_map _ Hc) in Hk as (e & He & _).
  rewrite Hl in He. by apply elem_of_nil in He.
Qed.

(** X5.  A call on an empty queue whose flag is clear blocks on the condition
    variable, and removals by other threads do not let it go: it waits
    again after every wake-up. *)
Theorem empty_queue_blocks wakes rounds s :
  consistent s → m_list s = [] → m_break s = false →
  Forall (Forall (λ o, ∃ k, o = OpRemove k)) wakes →
  waitUntilExpired wakes rounds s
  = Pending (replicate (S (length wakes)) CondWait) s.
Proof.
  intros Hc Hl Hb Hw. induction Hw as [|ops wakes Hops _ IH];
    rewrite waitUntilExpired_unfold; unfold wait_test; rewrite Hl, Hb; [done|].
  assert (Ho : apply_ops ops s = Some s).
  { induction Hops as [|o ops [k ->] _ IHo]; [done|]. simpl.
    unfold remove. by rewrite unsafeRemove_empty. }
  rewrite Ho, IH. done.
Qed.

Lemma after_sleeps eff (out : Outcome Key Info) :
  sleeps (effects (after eff out))
  = match out with
    | Undefined => []
    | _ => sleeps [eff] ++ sleeps (effects out)
    end.
Proof. destruct out, eff; done. Qed.

(** X6.  The thread never asks to sleep for a negative duration. *)
Theorem sleeps_nonnegative wakes rounds s :
  Forall (λ d, 0 ≤ d) (sleeps (effects (waitUntilExpired wakes rounds s))).
Proof.
  assert (Hloop : ∀ s0,
    Forall (λ d, 0 ≤ d) (sleeps (effects (expire_loop rounds s0)))).
  { induction rounds as [|[ops now] rounds IH]; intros s0; simpl.
    - constructor.
    - destruct (apply_ops ops s0) as [s1|]; [|constructor].
      destruct (expire_test now s1) as [res|] eqn:Ht; [|constructor].
      apply expire_test_frame in Ht as (front & e & _ & Hres).
      destruct res as [e' s2|d]; [constructor|].
      destruct Hres as [Hle ->]. rewrite after_sleeps.
      specialize (IH s1). destruct (expire_loop rounds s1); [| |constructor].
      + simpl. constructor; [lia|done].
      + simpl. constructor; [lia|done]. }
  revert s. induction wakes as [|ops wakes IH]; intros s;
    rewrite waitUntilExpired_unfold; destruct (wait_test s);
    try apply Hloop; try constructor.
  destruct (apply_ops ops s) as [s1|]; [|constructor].
  rewrite after_sleeps. specialize (IH s1).
  by destruct (waitUntilExpired wakes rounds s1).
Qed.

(** X7.  [back()] is undefined exactly on the empty list.  The second loop
    takes the lock without testing for emptiness again: when the other
    threads have emptied the list since the first loop, the call runs into
    that undefined behaviour. *)
Theorem emptied_list_undefined s s1 wakes ops now rounds :
  m_list s ≠ [] → apply_ops ops s = Some s1 →
  (expire_test now s1 = None ↔ m_list s1 = []) ∧
  (m_list s1 = [] →
     waitUntilExpired wakes ((ops, now) :: rounds) s = Undefined).
Proof.
  intros Hne Ho. split.
  - split.
    + intros Ht. destruct (m_list s1) as [|x l] eqn:Hl; [done|].
      destruct (expire_test_defined s1 now) as [res Hres]; [by rewrite Hl|].
      congruence.
    + intros Hl. unfold expire_test. by rewrite Hl.
  - intros Hl. rewrite waitUntilExpired_unfold. unfold wait_test.
    destruct (m_list s) as [|x l]; [done|]. simpl. rewrite Ho.
    unfold expire_test. by rewrite Hl.
Qed.

Lemma unsafeRemove_notify s k :
  unsafeRemove k (notify s) = notify <$> unsafeRemove k s.
Proof.
  unfold unsafeRemove. simpl. destruct (m_map s !! k) as [n|]; [|done].
  by destruct (list_erase n (m_list s)).
Qed.

Lemma apply_op_notify o s :
  apply_op o (notify s) = notify <$> apply_op o s.
Proof.
  destruct o as [k i now|k|]; simpl; [|apply unsafeRemove_notify|done].
  unfold reQueue. rewrite unsafeRemove_notify. simpl.
  by destruct (unsafeRemove k s).
Qed.

Lemma apply_ops_notify ops s :
  apply_ops ops (notify s) = notify <$> apply_ops ops s.
Proof.
  revert s. induction ops as [|o ops IH]; intros s; simpl; [done|].
  rewrite apply_op_notify. destruct (apply_op o s) as [s1|]; simpl; [|done].
  apply IH.
Qed.

Lemma step_notify ev s :
  step ev (notify s) = (λ r, (notify r.1, r.2)) <$> step ev s.
Proof.
  destruct ev as [o|now]; simpl.
  - rewrite apply_op_notify. by destruct (apply_op o s).
  - unfold expire_test. simpl.
    destruct (last (m_list s)) as [[n e]|]; [|done]. simpl.
    by case_bool_decide.
Qed.

(** X8.  Setting the flag commutes with every critical section: an execution
    from [notify s] passes through the same lists and maps and delivers
    the same elements as the execution from [s].  Nothing but the first
    loop of [waitUntilExpired] reads the flag. *)
Theorem notify_commutes_with_run evs s :
  run evs (notify s) = (λ r, (notify r.1, r.2)) <$> run evs s.
Proof.
  revert s. induction evs as [|ev evs IH]; intros s; simpl; [done|].
  rewrite step_notify. destruct (step ev s) as [[s1 d1]|]; simpl; [|done].
  rewrite IH. by destruct (run evs s1) as [[s2 d2]|].
Qed.

Lemma expire_test_notify now s :
  expire_test now (notify s)
  = (λ res, match res with
            | Expired e s' => Expired e (notify s')
            | NotYet d => NotYet d
            end) <$> expire_test now s.
Proof.
  unfold expire_test. simpl.
  destruct (last (m_list s)) as [[n e]|]; [|done]. simpl.
  by case_bool_decide.
Qed.

Lemma expire_loop_notify rounds s :
  effects (expire_loop rounds (notify s)) = effects (expire_loop rounds s) ∧
  final (expire_loop rounds (notify s))
  = notify <$> final (expire_loop rounds s).
Proof.
  revert s. induction rounds as [|[ops now] rounds IH]; intros s; simpl; [done|].
  rewrite apply_ops_notify. destruct (apply_ops ops s) as [s1|]; simpl; [|done].
  rewrite expire_test_notify.
  destruct (expire_test now s1) as [[e s2|d]|]; simpl; [done| |done].
  rewrite !after_final. destruct (IH s1) as [Heff Hfin].
  split; [|done].
  destruct (expire_loop rounds (notify s1)), (expire_loop rounds s1);
    simpl in *; congruence.
Qed.

(** X9.  Shutdown does not cancel what is queued: on a queue that is not
    empty, a call behaves with the flag set as with the flag clear, with
    the same sleeps and the same callback, and leaves the same queue but
    for the flag. *)
Theorem shutdown_keeps_delivering wakes rounds s :
  m_list s ≠ [] →
  effects (waitUntilExpired wakes rounds (notify s))
  = effects (waitUntilExpired wakes rounds s) ∧
  final (waitUntilExpired wakes rounds (notify s))
  = notify <$> final (waitUntilExpired wakes rounds s).
Proof.
  intros Hne. rewrite !waitUntilExpired_unfold. unfold wait_test. simpl.
  destruct (m_list s) as [|x l]; [done|]. apply expire_loop_notify.
Qed.

(** X10.  A delivery removes the back element exactly as [remove] of its key
    would, and happens only at a clock reading past its expiration
    time. *)
Theorem expire_is_remove_of_back s s' now e :
  consistent s → expire_test now s = Some (Expired e s') →
  remove (key e) s = Some s' ∧ last (elements s) = Some e ∧ time e < now.
Proof.
  intros Hc Ht. destruct (last (m_list s)) as [[n e0]|] eqn:Hl.
  - rewrite (expire_test_spec _ _ _ _ Hc Hl) in Ht.
    case_bool_decide; [|done]. injection Ht as <- <-.
    split_and!; [|unfold elements; by rewrite fmap_last, Hl|lia].
    unfold remove. by apply unsafeRemove_spec.
  - unfold expire_test in Ht. by rewrite Hl in Ht.
Qed.

(** X11.  Left alone by the other threads, a call on a queue that is not empty
    sleeps at every clock reading up to the expiration time of the back
    element, for the time that is left, and delivers that element at the
    first reading past it. *)
Theorem call_delivers_back s n e wakes (early : list Time) now rounds :
  consistent s → last (m_list s) = Some (n, e) →
  Forall (λ t, t ≤ time e) early → time e < now →
  ∃ s',
    waitUntilExpired wakes (((λ t, ([], t)) <$> early) ++ ([], now) :: rounds) s
    = Returned tt ((SleepFor <$> ((λ t, time e - t) <$> early))
                     ++ [OnExpired (key e) (info e)]) s' ∧
    remove (key e) s = Some s'.
Proof.
  intros Hc Hl Hearly Hnow.
  assert (Hw : wait_test s = WaitProceed).
  { unfold wait_test. by destruct (m_list s). }
  eexists. split; [|unfold remove; by apply unsafeRemove_spec].
  rewrite waitUntilExpired_unfold, Hw.
  induction Hearly as [|t early Ht _ IH].
  - cbn [fmap list_fmap app expire_loop apply_ops].
    rewrite (expire_test_spec _ _ _ _ Hc Hl).
    by rewrite bool_decide_true by lia.
  - rewrite !fmap_cons. cbn [app expire_loop apply_ops].
    rewrite (expire_test_spec _ _ _ _ Hc Hl).
    rewrite bool_decide_false by lia. by rewrite IH.
Qed.

(** ** Further properties of executions *)


Lemma inserted_elem (d : Z) evs e :
  e ∈ inserted d evs →
  ∃ t, EvOp (OpReQueue (key e) (info e) t) ∈ evs ∧ time e = t + d.
Proof.
  unfold inserted. rewrite list_elem_of_omap.
  intros ([[k i t|k|]|now] & Hin & Hev); try done.
  injection Hev as <-. by exists t.
Qed.


(** X13.  Cancellation holds until the next insertion: after [remove k], no
    execution without a [reQueue] of [k] delivers an element of key [k],
    and [k] stays out of the list. *)
Theorem removed_key_not_delivered s s1 k evs s' dels :
  consistent s → remove k s = Some s1 →
  (∀ i t, EvOp (OpReQueue k i t) ∉ evs) →
  run evs s1 = Some (s', dels) →
  (∀ e, e ∈ dels → key e ≠ k) ∧ (k ∉ keys s').
Proof.
  intros Hc Hrm Hno Hr.
  assert (Hk1 : ∀ e, e ∈ elements s1 → key e ≠ k).
  { unfold remove in Hrm. rewrite unsafeRemove_spec in Hrm by done.
    injection Hrm as <-. unfold elements. cbn [m_list]. intros e He.
    apply list_elem_of_fmap in He as (x & -> & Hx).
    by apply list_elem_of_filter in Hx as [Hx _]. }
  apply run_fifo in Hr. apply sublist_subseteq in Hr.
  assert (Hall : ∀ e, e ∈ dels ++ reverse (elements s') → key e ≠ k).
  { intros e He. apply Hr in He. apply elem_of_app in He as [He|He].
    - apply Hk1. by apply elem_of_reverse.
    - apply inserted_elem in He as (t & Hin & _). intros Hke.
      rewrite Hke in Hin. by apply (Hno (info e) t). }
  split.
  - intros e He. apply Hall. apply elem_of_app. by left.
  - unfold keys. intros Hin.
    apply list_elem_of_fmap in Hin as (e & Hke & He).
    apply (Hall e); [|done]. apply elem_of_app. right.
    by apply elem_of_reverse.
Qed.

(** X14.  Insertion and delivery are a round trip on an empty queue: a call
    that waits on an empty queue, is woken by a [reQueue] and reads the
    clock past the expiration time hands exactly that key and payload to
    the callback and leaves the queue as it found it. *)
Theorem insert_deliver_round_trip s k i t now rounds :
  consistent s → m_list s = [] → m_break s = false →
  t + m_delay s < now →
  waitUntilExpired [[OpReQueue k i t]] (([], now) :: rounds) s
  = Returned tt [CondWait; OnExpired k i] s.
Proof.
  intros Hc Hl Hb Hlate.
  assert (Hk : m_map s !! k = None).
  { destruct (m_map s !! k) as [n|] eqn:Hk; [|done].
    apply (consistent_map _ Hc) in Hk as (e & He & _).
    rewrite Hl in He. by apply elem_of_nil in He. }
  rewrite waitUntilExpired_unfold. unfold wait_test. rewrite Hl, Hb.
  cbn [apply_ops apply_op]. rewrite reQueue_spec by done.
  cbn [fmap option_fmap option_map fst mbind option_bind].
  rewrite waitUntilExpired_unfold. unfold wait_test. cbn [m_list].
  rewrite Hl, filter_nil.
  cbn [expire_loop apply_ops]. unfold expire_test.
  cbn [m_list m_map m_delay m_break last time key info removelast].
  rewrite bool_decide_true by lia. cbn [after].
  rewrite delete_insert_eq, delete_delete_eq, delete_id by done.
  destruct s; simpl in *; by subst.
Qed.

End properties.

(** * The example, evaluated *)

Lemma example_queue_reached :
  run example_events example_new = Some (example_queue, []).
Proof. vm_compute. reflexivity. Qed.

Lemma example_queue_consistent : consistent example_queue.
Proof.
  eapply run_consistent; [apply consistent_new|apply example_queue_reached].
Qed.

Lemma example_rest_reached :
  run (example_events ++ [EvExpire 2000000001]) example_new
  = Some (example_rest, [mkElement "A" 2000000000 "x"]).
Proof. vm_compute. reflexivity. Qed.

(** A pass of the second loop after another thread has removed the only
    element calls [back()] on an empty list. *)
Lemma back_of_emptied_list :
  waitUntilExpired [] [([OpRemove "B"], 3000000000)] example_rest
  = Undefined.
Proof. vm_compute. reflexivity. Qed.

(** ** C1 on the example: [A] is refreshed twice; only the last payload
    and expiration time remain. *)
Lemma reQueue_single_live_entry_witness :
  consistent example_queue ∧
  ∃ s2, apply_ops [OpReQueue "A" "y" 1000000000;
                   OpReQueue "A" "w" 1500000000] example_queue = Some s2 ∧
        entries_of "A" s2 = [mkElement "A" 3500000000 "w"].
Proof.
  split; [apply example_queue_consistent|].
  destruct (reQueue_single_live_entry example_queue "A" "w" 1500000000
              example_queue_consistent) as [_ Hseq].
  destruct (Hseq [("y", 1000000000)]) as (s2 & Happly & Hentries).
  exists s2. split; [exact Happly|exact Hentries].
Defined.

(** ** C2 on the example *)

(** At [now = time] the code does not deliver: the comparison of line 92
    is strict. *)
Lemma expire_at_deadline_sleeps :
  last (m_list example_queue) = Some (1%nat, mkElement "A" 2000000000 "x") ∧
  2000000000 >= time (mkElement "A" 2000000000 "x") ∧
  expire_test 2000000000 example_queue = Some (NotYet 0) ∧
  waitUntilExpired [] [([], 2000000000)] example_queue
  = Pending [SleepFor 0] example_queue.
Proof. vm_compute. split_and!; try reflexivity. discriminate. Qed.

Lemma expire_pass_strict_witness :
  consistent example_queue ∧
  last (m_list example_queue) = Some (1%nat, mkElement "A" 2000000000 "x") ∧
  ∃ s', waitUntilExpired [] [([], 2000000001)] example_queue
        = Returned tt [OnExpired "A" "x"] s' ∧
        m_list s' = [(2%nat, mkElement "B" 2500000000 "z")].
Proof.
  split; [apply example_queue_consistent|]. split; [reflexivity|].
  destruct (expire_pass_strict example_queue 2000000001 1%nat
              (mkElement "A" 2000000000 "x") [] []
              example_queue_consistent eq_refl) as [Hexpired _].
  destruct Hexpired as (s' & _ & Hlist & _ & _ & _ & Hcall); [reflexivity|].
  exists s'. split; [exact Hcall|exact Hlist].
Defined.

(** ** C3 on the example: [A] is delivered, [B] is still queued. *)
Lemma delivery_order_fifo_witness :
  run (example_events ++ [EvExpire 2000000001]) example_new
  = Some (example_rest, [mkElement "A" 2000000000 "x"]) ∧
  [mkElement "A" 2000000000 "x"] ++ reverse (elements example_rest)
    `sublist_of` inserted (seconds ns_per_second 2)
                   (example_events ++ [EvExpire 2000000001]).
Proof.
  split; [apply example_rest_reached|].
  apply (delivery_order_fifo _ _ _ _ _ example_rest_reached).
Defined.

(** ** C4 on the example *)
Lemma list_sorted_by_expiration_witness :
  run example_events example_new = Some (example_queue, []) ∧
  Sorted Z.le (reQueue_clock example_events) ∧
  newest_first (elements example_queue).
Proof.
  assert (Hclock : Sorted Z.le (reQueue_clock example_events)).
  { repeat constructor. vm_compute. discriminate. }
  split; [apply example_queue_reached|]. split; [exact Hclock|].
  apply (list_sorted_by_expiration _ _ _ _ _ example_queue_reached Hclock).
Defined.

(** ** C5 on the example: empty queue, flag set. *)
Lemma shutdown_return_immediate_witness :
  m_break (notify example_new) = true ∧
  m_list (notify example_new) = [] ∧
  waitUntilExpired [] [] (notify example_new)
  = Returned tt [] (notify example_new).
Proof.
  split; [reflexivity|]. split; [reflexivity|].
  apply (shutdown_return_immediate (notify example_new) [] []); reflexivity.
Defined.

(** ** C6 on the example *)

(** A call that returns by line 81 and a call that invokes the callback
    return the same value. *)
Lemma return_value_same_both_ways :
  let quiet := waitUntilExpired [] [] (notify example_new) in
  let fired := waitUntilExpired [] [([], 2000000001)] example_queue in
  callbacks (effects quiet) = [] ∧
  callbacks (effects fired) = [("A", "x")] ∧
  result quiet = Some tt ∧
  result fired = Some tt ∧
  result quiet = result fired.
Proof. vm_compute. split_and!; reflexivity. Qed.

Lemma return_value_is_unit_witness :
  waitUntilExpired [] [([], 2000000001)] example_queue
  = Returned tt [OnExpired "A" "x"] example_rest ∧
  result (waitUntilExpired [] [([], 2000000001)] example_queue) = Some tt.
Proof.
  assert (Hcall : waitUntilExpired [] [([], 2000000001)] example_queue
                  = Returned tt [OnExpired "A" "x"] example_rest)
    by (vm_compute; reflexivity).
  split; [exact Hcall|].
  apply (return_value_is_unit _ _ _ _ _ _ Hcall).
Defined.

(** ** C7 on the example *)
Lemma remove_frame_witness :
  consistent example_queue ∧
  remove "C" example_queue = Some example_queue ∧
  ∃ s', remove "A" example_queue = Some s' ∧
        m_list s' = [(2%nat, mkElement "B" 2500000000 "z")] ∧
        m_map s' !! "B" = Some 2%nat.
Proof.
  split; [apply example_queue_consistent|].
  destruct (remove_frame example_queue "C" example_queue_consistent)
    as [Habsent _].
  destruct (remove_frame example_queue "A" example_queue_consistent)
    as [_ Hpresent].
  split.
  - apply Habsent. vm_compute. intros Hin.
    repeat (apply elem_of_cons in Hin as [Hin|Hin]; [discriminate|]).
    by apply elem_of_nil in Hin.
  - destruct Hpresent as (s' & Hrm & Hlist & _ & _ & Hother & _).
    { apply list_elem_of_further, list_elem_of_here. }
    exists s'. split; [exact Hrm|]. split; [exact Hlist|].
    rewrite Hother by discriminate. reflexivity.
Defined.

(** ** C9 on the example *)
Lemma map_list_agree_witness :
  run example_events example_new = Some (example_queue, []) ∧
  dom (m_map example_queue) = list_to_set (keys example_queue) ∧
  NoDup (keys example_queue).
Proof.
  split; [apply example_queue_reached|].
  destruct (map_list_agree _ _ _ _ _ example_queue_reached)
    as (Hdom & Hkeys & _).
  split; [exact Hdom|exact Hkeys].
Defined.

(** ** C10 on the example: the flag survives insertions, removals and
    deliveries. *)
Lemma shutdown_irreversible_witness :
  ∃ s' dels,
    run [EvOp (OpReQueue "C" "v" 600000000); EvOp (OpRemove "B");
         EvExpire 2000000001; EvExpire 2600000001]
        (notify example_queue) = Some (s', dels) ∧
    m_list s' = [] ∧ m_break s' = true ∧
    waitUntilExpired [] [] s' = Returned tt [] s'.
Proof.
  eexists _, _. split; [vm_compute; reflexivity|].
  split; [reflexivity|].
  destruct (shutdown_irreversible example_queue
              [EvOp (OpReQueue "C" "v" 600000000); EvOp (OpRemove "B");
               EvExpire 2000000001; EvExpire 2600000001] _ _
              ltac:(vm_compute; reflexivity)) as (Hflag & Hcall & _).
  split; [exact Hflag|]. apply Hcall. reflexivity.
Defined.

(** ** The further properties on the example *)

Lemma example_new_consistent : consistent example_new.
Proof. apply consistent_new. Qed.

Lemma example_rest_consistent : consistent example_rest.
Proof.
  eapply run_consistent; [apply consistent_new|apply example_rest_reached].
Qed.

Lemma remove_idempotent_commutes_witness :
  consistent example_queue ∧
  remove "A" example_queue ≫= remove "B"
  = remove "B" example_queue ≫= remove "A".
Proof.
  split; [apply example_queue_consistent|].
  apply (remove_idempotent_commutes example_queue "A" "B"
           example_queue_consistent).
Defined.

Lemma remove_after_reQueue_witness :
  ∃ s', fst <$> reQueue "A" "y" 1000000000 example_queue = Some s' ∧
        remove "A" s' = Some example_rest.
Proof.
  destruct (reQueue "A" "y" 1000000000 example_queue) as [[s' signal]|] eqn:Hq;
    [|by vm_compute in Hq].
  exists s'. split; [reflexivity|].
  rewrite (remove_after_reQueue _ _ _ _ _ _ example_queue_consistent Hq).
  vm_compute. reflexivity.
Defined.

Lemma reQueue_after_remove_witness :
  consistent example_queue ∧
  remove "A" example_queue = Some example_rest ∧
  fst <$> reQueue "A" "y" 1000000000 example_rest
  = fst <$> reQueue "A" "y" 1000000000 example_queue ∧
  snd <$> reQueue "A" "y" 1000000000 example_queue = Some false.
Proof.
  assert (Hrm : remove "A" example_queue = Some example_rest)
    by (vm_compute; reflexivity).
  split; [apply example_queue_consistent|]. split; [exact Hrm|].
  destruct (reQueue_after_remove example_queue example_rest "A" "y"
              1000000000 example_queue_consistent Hrm) as [Hstate Hsignal].
  split; [exact Hstate|]. apply Hsignal.
  apply list_elem_of_further, list_elem_of_here.
Defined.

Lemma reQueue_keeps_others_witness :
  ∃ s' signal,
    reQueue "A" "y" 1000000000 example_queue = Some (s', signal) ∧
    entries_of "B" s' = [mkElement "B" 2500000000 "z"] ∧
    length (m_list s') = 2%nat.
Proof.
  destruct (reQueue "A" "y" 1000000000 example_queue) as [[s' signal]|] eqn:Hq;
    [|by vm_compute in Hq].
  exists s', signal. split; [reflexivity|].
  destruct (reQueue_keeps_others _ _ _ _ _ _ example_queue_consistent Hq)
    as (_ & Hothers & _ & _ & Hlen).
  destruct (Hothers "B") as [_ Hentries]; [discriminate|].
  split; [rewrite Hentries; reflexivity|].
  rewrite Hlen. rewrite decide_True; [reflexivity|].
  apply list_elem_of_further, list_elem_of_here.
Defined.

Lemma empty_queue_blocks_witness :
  consistent example_new ∧
  waitUntilExpired [[OpRemove "A"]; []] [([], 5)] example_new
  = Pending [CondWait; CondWait; CondWait] example_new.
Proof.
  split; [apply example_new_consistent|].
  apply (empty_queue_blocks [[OpRemove "A"]; []] [([], 5)] example_new
           example_new_consistent eq_refl eq_refl).
  repeat constructor. by exists "A".
Defined.

Lemma emptied_list_undefined_witness :
  m_list example_rest ≠ [] ∧
  apply_ops [OpRemove "B"] example_rest
  = Some {| m_map := ∅; m_list := []; m_delay := 2000000000;
            m_break := false |} ∧
  waitUntilExpired [] [([OpRemove "B"], 3000000000)] example_rest
  = Undefined.
Proof.
  assert (Hne : m_list example_rest ≠ []) by discriminate.
  assert (Hops : apply_ops [OpRemove "B"] example_rest
                 = Some {| m_map := ∅; m_list := []; m_delay := 2000000000;
                           m_break := false |})
    by (vm_compute; reflexivity).
  split; [exact Hne|]. split; [exact Hops|].
  apply (emptied_list_undefined _ _ [] _ 3000000000 [] Hne Hops).
  reflexivity.
Defined.

Lemma shutdown_keeps_delivering_witness :
  m_list example_queue ≠ [] ∧
  effects (waitUntilExpired [] [([], 2000000001)] (notify example_queue))
  = [OnExpired "A" "x"].
Proof.
  assert (Hne : m_list example_queue ≠ []) by discriminate.
  split; [exact Hne|].
  destruct (shutdown_keeps_delivering [] [([], 2000000001)] example_queue Hne)
    as [Heff _].
  rewrite Heff. vm_compute. reflexivity.
Defined.

Lemma expire_is_remove_of_back_witness :
  expire_test 2000000001 example_queue
  = Some (Expired (mkElement "A" 2000000000 "x") example_rest) ∧
  remove "A" example_queue = Some example_rest.
Proof.
  assert (Ht : expire_test 2000000001 example_queue
               = Some (Expired (mkElement "A" 2000000000 "x") example_rest))
    by (vm_compute; reflexivity).
  split; [exact Ht|].
  apply (expire_is_remove_of_back _ _ _ _ example_queue_consistent Ht).
Defined.

Lemma call_delivers_back_witness :
  ∃ s',
    waitUntilExpired []
      [([], 1000000000); ([], 2000000000); ([], 2000000001)] example_queue
    = Returned tt [SleepFor 1000000000; SleepFor 0; OnExpired "A" "x"] s' ∧
    remove "A" example_queue = Some s'.
Proof.
  destruct (call_delivers_back example_queue 1%nat
              (mkElement "A" 2000000000 "x") []
              [1000000000; 2000000000] 2000000001 []
              example_queue_consistent eq_refl) as (s' & Hcall & Hrm).
  - repeat constructor; simpl; lia.
  - simpl. lia.
  - exists s'. split; [exact Hcall|exact Hrm].
Defined.


Lemma removed_key_not_delivered_witness :
  consistent example_queue ∧
  remove "A" example_queue = Some example_rest ∧
  ∃ s' dels,
    run [EvExpire 2000000001; EvOp (OpReQueue "C" "v" 2000000002);
         EvExpire 2500000001] example_rest = Some (s', dels) ∧
    dels = [mkElement "B" 2500000000 "z"] ∧
    (∀ e, e ∈ dels → key e ≠ "A").
Proof.
  assert (Hrm : remove "A" example_queue = Some example_rest)
    by (vm_compute; reflexivity).
  split; [apply example_queue_consistent|]. split; [exact Hrm|].
  eexists _, _. split; [vm_compute; reflexivity|]. split; [reflexivity|].
  eapply proj1.
  eapply (removed_key_not_delivered example_queue example_rest "A"
            [EvExpire 2000000001; EvOp (OpReQueue "C" "v" 2000000002);
             EvExpire 2500000001]);
    [exact example_queue_consistent|exact Hrm| |].
  - intros i t Hin.
    repeat (apply elem_of_cons in Hin as [Hin|Hin]; [discriminate|]).
    by apply elem_of_nil in Hin.
  - vm_compute. reflexivity.
Defined.

Lemma insert_deliver_round_trip_witness :
  consistent example_new ∧
  waitUntilExpired [[OpReQueue "A" "x" 0]] [([], 2000000001)] example_new
  = Returned tt [CondWait; OnExpired "A" "x"] example_new.
Proof.
  split; [apply example_new_consistent|].
  apply (insert_deliver_round_trip example_new "A" "x" 0 2000000001 []
           example_new_consistent eq_refl eq_refl).
  reflexivity.
Defined.
